(** * SuperSet: a shallow embedding of [src/index.js]

    [SuperSet] extends the built-in JavaScript [Set] with collection methods
    ([map], [filter], [reduce], [every], [some]) and with set algebra
    ([union], [subtract], [xor], [intersect], [isSubsetOf], [equals],
    [update]).

    The embedding keeps what the program observes:
    - set objects live in a store, addressed by reference, so that "the same
      instance" and "a new instance" mean what they mean in JavaScript;
    - a set holds its elements in insertion order, without duplicates;
    - a method is a computation over the store that returns, throws, or (for
      the one loop that walks a set while writing to a set) runs out of fuel;
    - a generator is embedded as the sequence it yields when it is drained.
      The only consumer of the generators of this file is the constructor,
      which writes to the object it has just allocated and to nothing else,
      so draining a generator at once and draining it on demand give the same
      sequence.

    Numbers are integers here: NaN, negative zero and fractions are left out.
    Callbacks supplied by a caller are pure functions, or the native
    [Set.prototype.has]. [join] takes the [ToString] operation of the
    language as a parameter. *)

From Stdlib Require Import ZArith.
From stdpp Require Import gmap strings list fin_maps.

(** ** Values *)

Abbreviation loc := nat (only parsing).

Inductive value :=
| VUndefined
| VNull
| VBool (b : bool)
| VNum (n : Z)
| VStr (s : string)
| VSet (l : loc)      (* a reference to a set object of the store *)
| VObj (id : nat).    (* a reference to any other object, compared by identity *)

Global Instance value_eq_dec : EqDecision value.
Proof. solve_decision. Defined.

(** [ToBoolean]: what an [if] makes of a value. *)
Definition truthy (v : value) : bool :=
  match v with
  | VUndefined | VNull => false
  | VBool b => b
  | VNum n => negb (n =? 0)%Z
  | VStr s => negb (bool_decide (s = EmptyString))
  | VSet _ | VObj _ => true
  end.

(** ** The store and the monad of computations *)

Abbreviation heap := (gmap nat (list value)) (only parsing).

Inductive error :=
| TypeError (msg : string).

Inductive outcome (A : Type) :=
| Ok (a : A) (h : heap)
| Throw (e : error)
| OutOfFuel.
Arguments Ok {A} a h.
Arguments Throw {A} e.
Arguments OutOfFuel {A}.

Definition M (A : Type) : Type := heap → outcome A.

Global Instance M_ret : MRet M := λ A a h, Ok a h.

Global Instance M_bind : MBind M := λ A B k c h,
  match c h with
  | Ok a h' => k a h'
  | Throw e => Throw e
  | OutOfFuel => OutOfFuel
  end.

Definition throw {A} (e : error) : M A := λ _, Throw e.

(** ** The built-in [Set] *)

Module JSSet.

(** The [[SetData]] list of the object at [this]. A reference to no set
    object is an incompatible receiver. *)
Definition data (this : loc) : M (list value) := λ h,
  match h !! this with
  | Some d => Ok d h
  | None => Throw (TypeError "incompatible receiver")
  end.

Definition store (this : loc) (d : list value) : M unit := λ h,
  Ok tt (<[this := d]> h).

(** [new Set()] before any element is added. *)
Definition alloc : M loc := λ h,
  let l := fresh (dom h) in Ok l (<[l := []]> h).

Definition size (this : loc) : M nat :=
  d ← data this; mret (length d).

Definition has (this : loc) (v : value) : M bool :=
  d ← data this; mret (bool_decide (v ∈ d)).

(** [add] appends a value that is not there yet and returns the set. *)
Definition add_data (d : list value) (v : value) : list value :=
  if decide (v ∈ d) then d else d ++ [v].

Definition add (this : loc) (v : value) : M loc :=
  d ← data this; store this (add_data d v);; mret this.

(** [for (const itm of items) this.add(itm)] over a sequence that the
    additions cannot change. *)
Fixpoint add_all (this : loc) (items : list value) : M unit :=
  match items with
  | [] => mret tt
  | itm :: rest => add this itm;; add_all this rest
  end.

(** The sequence a fresh iterator of the set yields. *)
Definition values (this : loc) : M (list value) := data this.

End JSSet.

(** ** Functions *)

Inductive jsfun :=
| Closure (f : value → list value → value)   (* receiver, arguments *)
| Set_prototype_has
| Bound (f : jsfun) (thisArg : value).

(** A missing argument reads as [undefined]. *)
Definition arg (i : nat) (args : list value) : value := nth i args VUndefined.

Fixpoint call (f : jsfun) (this : value) (args : list value) : M value :=
  match f with
  | Closure g => mret (g this args)
  | Set_prototype_has =>
      match this with
      | VSet l => b ← JSSet.has l (arg 0 args); mret (VBool b)
      | _ => throw (TypeError "incompatible receiver")
      end
  | Bound g thisArg => call g thisArg args
  end.

(** [func.bind(thisArg)] *)
Definition bind (func : jsfun) (thisArg : value) : jsfun := Bound func thisArg.

(** ** Iterables and generators *)

(** What a caller may hand to [update]: an array literal or a set. *)
Inductive iterable :=
| IArray (vs : list value)
| ISet (l : loc).

Global Instance iterable_eq_dec : EqDecision iterable.
Proof. solve_decision. Defined.

(** The [i]-th step of an iterator over [it]: an array iterator and a set
    iterator both keep an index and read the element at that index when they
    are asked for it, so a set that grows while it is walked yields its new
    elements too. *)
Definition iterator_next (it : iterable) (i : nat) : M (option value) :=
  match it with
  | IArray vs => mret (vs !! i)
  | ISet l => d ← JSSet.data l; mret (d !! i)
  end.

Abbreviation generator := (M (list value)) (only parsing).

(** [for (const itm of setObj) yield transform(itm, itm, setObj);] *)
Fixpoint mapGen_loop (setObj : loc) (transform : jsfun) (items : list value)
  : M (list value) :=
  match items with
  | [] => mret []
  | itm :: rest =>
      v ← call transform VUndefined [itm; itm; VSet setObj];
      vs ← mapGen_loop setObj transform rest;
      mret (v :: vs)
  end.

Definition mapGen (setObj : loc) (transform : jsfun) : generator :=
  items ← JSSet.values setObj; mapGen_loop setObj transform items.

(** [for (const itm of setObj) if (filter(itm, itm, setObj)) yield itm;] *)
Fixpoint filterGen_loop (setObj : loc) (filter : jsfun) (items : list value)
  : M (list value) :=
  match items with
  | [] => mret []
  | itm :: rest =>
      r ← call filter VUndefined [itm; itm; VSet setObj];
      vs ← filterGen_loop setObj filter rest;
      mret (if truthy r then itm :: vs else vs)
  end.

Definition filterGen (setObj : loc) (filter : jsfun) : generator :=
  items ← JSSet.values setObj; filterGen_loop setObj filter items.

(** [for (const itm of set1) if (!set2.has(itm)) yield itm;] *)
Fixpoint subtractGen_loop (set2 : loc) (items : list value) : M (list value) :=
  match items with
  | [] => mret []
  | itm :: rest =>
      b ← JSSet.has set2 itm;
      vs ← subtractGen_loop set2 rest;
      mret (if negb b then itm :: vs else vs)
  end.

Definition subtractGen (set1 : loc) (set2 : loc) : generator :=
  items ← JSSet.values set1; subtractGen_loop set2 items.

(** [yield* set1; yield* set2;] where [unionGen] is handed sets by [union]
    and generators by [xorGen]. *)
Definition unionGen (set1 set2 : generator) : generator :=
  xs ← set1; ys ← set2; mret (xs ++ ys).

Definition xorGen (set1 set2 : loc) : generator :=
  unionGen (subtractGen set1 set2) (subtractGen set2 set1).

(** ** The built-in [Array.prototype.join] *)

(** [join] turns each element into text with the [ToString] operation of the
    language, which is a parameter here; it is taken to return a string for
    every value of the model and to leave the store alone. *)
Module JSArray.

(** The text of one element: nothing for [undefined] and [null]. *)
Definition element_text (ToString : value → string) (element : value) : string :=
  match element with
  | VUndefined | VNull => EmptyString
  | _ => ToString element
  end.

(** A separator that is left out, or [undefined], is a comma. *)
Definition separator_text (ToString : value → string) (separator : value)
  : string :=
  match separator with
  | VUndefined => ","
  | _ => ToString separator
  end.

(** [R] is the text so far and [k] the index of the element that comes
    next; the separator goes before every element but the first. *)
Fixpoint join_loop (ToString : value → string) (sep : string) (R : string)
  (k : nat) (items : list value) : string :=
  match items with
  | [] => R
  | element :: rest =>
      let R := if 0 <? k then R +:+ sep else R in
      join_loop ToString sep (R +:+ element_text ToString element) (S k) rest
  end.

Definition join (ToString : value → string) (items : list value)
  (separator : value) : string :=
  join_loop ToString (separator_text ToString separator) EmptyString 0 items.

End JSArray.

(** ** The class *)

Module SuperSet.

(** [new SuperSet(iterable)]: the inherited constructor allocates the
    object and adds what the iterable yields, in order. *)
Definition new (src : generator) : M loc :=
  this ← JSSet.alloc;
  items ← src;
  JSSet.add_all this items;;
  mret this.

Definition of_array (vs : list value) : M loc := new (mret vs).

Definition map (this : loc) (func : jsfun) (thisArg : value) : M loc :=
  new (mapGen this (bind func thisArg)).

Definition filter (this : loc) (func : jsfun) (thisArg : value) : M loc :=
  new (filterGen this (bind func thisArg)).

Definition union (this otherSetObj : loc) : M loc :=
  new (unionGen (JSSet.values this) (JSSet.values otherSetObj)).

(** [for (const itm of this) if (!check(itm, itm, this)) return false;]
    and then [return true]. *)
Fixpoint every_loop (this : loc) (check : jsfun) (items : list value)
  : M bool :=
  match items with
  | [] => mret true
  | itm :: rest =>
      r ← call check VUndefined [itm; itm; VSet this];
      if negb (truthy r) then mret false else every_loop this check rest
  end.

Definition every (this : loc) (func : jsfun) (thisArg : value) : M bool :=
  let check := bind func thisArg in
  items ← JSSet.values this; every_loop this check items.

(** [arguments.length] of a call [reduce(func)] or
    [reduce(func, initialValue)]. *)
Definition arguments_length (initialValue : option value) : nat :=
  match initialValue with None => 1 | Some _ => 2 end.

(** [for (const itm of iterator) result = func(result, itm, itm, this);]
    and then [return result]. *)
Fixpoint reduce_loop (this : loc) (func : jsfun) (result : value)
  (iterator : list value) : M value :=
  match iterator with
  | [] => mret result
  | itm :: rest =>
      result' ← call func VUndefined [result; itm; itm; VSet this];
      reduce_loop this func result' rest
  end.

Definition reduce (this : loc) (func : jsfun) (initialValue : option value)
  : M value :=
  n ← JSSet.size this;
  if (arguments_length initialValue <? 2) && (n =? 0) then
    throw (TypeError "An initial value is required when using an empty set.")
  else
    iterator ← JSSet.values this;
    let '(result, iterator) :=
      if arguments_length initialValue =? 1
      then (hd VUndefined iterator, tl iterator)   (* iterator.next().value *)
      else (default VUndefined initialValue, iterator) in
    reduce_loop this func result iterator.

(** [for (const itm of this) if (check(itm, itm, this)) return true;]
    and then [return false]. *)
Fixpoint some_loop (this : loc) (check : jsfun) (items : list value)
  : M bool :=
  match items with
  | [] => mret false
  | itm :: rest =>
      r ← call check VUndefined [itm; itm; VSet this];
      if truthy r then mret true else some_loop this check rest
  end.

Definition some (this : loc) (func : jsfun) (thisArg : value) : M bool :=
  let check := bind func thisArg in
  items ← JSSet.values this; some_loop this check items.

(** [this.every(otherSetObj.has, otherSetObj)] *)
Definition isSubsetOf (this otherSetObj : loc) : M bool :=
  every this Set_prototype_has (VSet otherSetObj).

(** [this.size === otherSetObj.size && this.isSubsetOf(otherSetObj)] *)
Definition equals (this otherSetObj : loc) : M bool :=
  n ← JSSet.size this;
  m ← JSSet.size otherSetObj;
  if n =? m then isSubsetOf this otherSetObj else mret false.

(** [this.filter(otherSetObj.has, otherSetObj)] *)
Definition intersect (this otherSetObj : loc) : M loc :=
  filter this Set_prototype_has (VSet otherSetObj).

Definition subtract (this otherSetObj : loc) : M loc :=
  new (subtractGen this otherSetObj).

(** [update] walks [iterable] while it writes to [this], and [iterable] may
    be a set, even [this] itself. The loop therefore asks the iterator for
    one element at a time, in the store as it is then; [fuel] bounds the
    number of rounds. *)
Fixpoint update_loop (fuel : nat) (this : loc) (it : iterable) (i : nat)
  : M unit :=
  match fuel with
  | 0 => λ _, OutOfFuel
  | S fuel' =>
      r ← iterator_next it i;
      match r with
      | None => mret tt
      | Some itm => JSSet.add this itm;; update_loop fuel' this it (S i)
      end
  end.

Definition update (fuel : nat) (this : loc) (it : iterable) : M loc :=
  update_loop fuel this it 0;;
  mret this.

Definition xor (this otherSetObj : loc) : M loc :=
  new (xorGen this otherSetObj).

(** [for (const itm of this) if (check(itm, itm, this)) return itm;] and
    then the method ends without a [return], which gives [undefined]. *)
Fixpoint find_loop (this : loc) (check : jsfun) (items : list value)
  : M value :=
  match items with
  | [] => mret VUndefined
  | itm :: rest =>
      r ← call check VUndefined [itm; itm; VSet this];
      if truthy r then mret itm else find_loop this check rest
  end.

Definition find (this : loc) (func : jsfun) (thisArg : value) : M value :=
  let check := bind func thisArg in
  items ← JSSet.values this; find_loop this check items.

(** [Array.from(this).join(separator)] *)
Definition join (ToString : value → string) (this : loc) (separator : value)
  : M string :=
  items ← JSSet.values this;
  mret (JSArray.join ToString items separator).

(** [this[Symbol.iterator]().next().value]: the iterator is a new one, and
    the value of a step past the end is [undefined]. *)
Definition first (this : loc) : M value :=
  iterator ← JSSet.values this;
  mret (hd VUndefined iterator).

End SuperSet.

(** ** Notions used to state the properties *)

(** The contents of a set that held [d] after the values [vs] have been
    added to it one by one. *)
Definition added (d vs : list value) : list value :=
  foldl JSSet.add_data d vs.

(** Every set of the store holds each of its elements once. *)
Definition heap_wf (h : heap) : Prop :=
  ∀ l d, h !! l = Some d → NoDup d.

(** In the store [h] the function [f], called on the receiver [this],
    returns [g args] and leaves the store as it is. *)
Definition computes (h : heap) (f : jsfun) (this : value)
  (g : list value → value) : Prop :=
  ∀ args, call f this args h = Ok (g args) h.

(** What a callback that computes [g] answers for the element [itm] of the
    set [this]: it is called as [check(itm, itm, this)]. *)
Definition answer (g : list value → value) (this : loc) (itm : value) : value :=
  g [itm; itm; VSet this].

(** The store [h'] extends [h] by the one object [l] and changes nothing
    else. *)
Definition allocates (h : heap) (l : loc) (d : list value) (h' : heap) : Prop :=
  h !! l = None ∧ h' = <[l := d]> h.

(** The call [c], made in the store [h], returns a set object that was not in
    [h], so an object other than [a] and [b], and leaves every object of [h]
    as it was. *)
Definition returns_new_set (h : heap) (a b : loc) (c : M loc) : Prop :=
  ∃ r h', c h = Ok r h'
    ∧ h !! r = None ∧ is_Some (h' !! r)
    ∧ r ≠ a ∧ r ≠ b
    ∧ ∀ l, l ≠ r → h' !! l = h !! l.

(** The two lists hold the same elements. *)
Definition same_elements (A B : list value) : Prop :=
  ∀ x, x ∈ A ↔ x ∈ B.

(** [x] is in exactly one of [A] and [B]. *)
Definition in_exactly_one (A B : list value) (x : value) : Prop :=
  (x ∈ A ∧ x ∉ B) ∨ (x ∈ B ∧ x ∉ A).

(** The expressions of the algebraic laws, evaluated left to right. *)

(** [A.subtract(B).union(A.intersect(B)).equals(A)] *)
Definition partition_law (A B : loc) : M bool :=
  s ← SuperSet.subtract A B;
  i ← SuperSet.intersect A B;
  u ← SuperSet.union s i;
  SuperSet.equals u A.

(** [A.subtract(B).union(B.subtract(A))] *)
Definition xor_composed (A B : loc) : M loc :=
  s ← SuperSet.subtract A B;
  t ← SuperSet.subtract B A;
  SuperSet.union s t.

(** [A.xor(B).equals(A.subtract(B).union(B.subtract(A)))] *)
Definition xor_law (A B : loc) : M bool :=
  x ← SuperSet.xor A B;
  u ← xor_composed A B;
  SuperSet.equals x u.

(** [A.union(B).equals(B.union(A))] *)
Definition union_comm_law (A B : loc) : M bool :=
  u ← SuperSet.union A B;
  v ← SuperSet.union B A;
  SuperSet.equals u v.

(** [A.union(B).size] *)
Definition union_size (A B : loc) : M nat :=
  u ← SuperSet.union A B;
  JSSet.size u.

(** [new SuperSet([1,2]).update([2,3]).equals(new SuperSet([1,2,3]))] *)
Definition update_example (fuel : nat) : M bool :=
  s ← SuperSet.of_array [VNum 1; VNum 2];
  s' ← SuperSet.update fuel s (IArray [VNum 2; VNum 3]);
  t ← SuperSet.of_array [VNum 1; VNum 2; VNum 3];
  SuperSet.equals s' t.

(** A store with the two sets [{1, 2}] and [{2, 3}], and two callbacks:
    [(acc, itm) => acc] and [(itm) => itm === 1]. *)
Definition demo_heap : heap :=
  <[0 := [VNum 1; VNum 2]]> (<[1 := [VNum 2; VNum 3]]> ∅).

Definition keep_accumulator : value → list value → value :=
  λ _ args, arg 0 args.

Definition is_one : value → list value → value :=
  λ _ args, VBool (bool_decide (arg 0 args = VNum 1)).

(** [x => x % 2], on the numbers it is used on below. *)
Definition parity : value → list value → value :=
  λ _ args, match arg 0 args with VNum n => VNum (n mod 2) | v => v end.

(** [new SuperSet([1,2,2,3]).size] *)
Definition construct_size : M nat :=
  s ← SuperSet.of_array [VNum 1; VNum 2; VNum 2; VNum 3];
  JSSet.size s.

(** [new SuperSet([1,2,3]).map(x => x % 2).size] *)
Definition map_parity_size : M nat :=
  s ← SuperSet.of_array [VNum 1; VNum 2; VNum 3];
  m ← SuperSet.map s (Closure parity) VUndefined;
  JSSet.size m.

(** The elements an iterable yields when nothing writes to it. *)
Definition elements_of (h : heap) (it : iterable) : option (list value) :=
  match it with
  | IArray vs => Some vs
  | ISet l => h !! l
  end.

(** ** More expressions, for the further properties *)

(** [(...args) => !p(...args)], the receiver passed on. *)
Definition negate (p : value → list value → value)
  : value → list value → value :=
  λ this args, VBool (negb (truthy (p this args))).

(** A [ToString] for the instances: a string is its own text. *)
Definition demo_text (v : value) : string :=
  match v with
  | VStr s => s
  | _ => "?"
  end.

(** A store whose two sets [{"a", "b"}] and [{"c"}] share no element. *)
Definition text_heap : heap :=
  <[0 := [VStr "a"; VStr "b"]]> (<[1 := [VStr "c"]]> ∅).

(** The values of [vs], each at the place where it occurs first: the head
    stays, and it is taken out of what the rest gives. *)
Fixpoint first_occurrences (vs : list value) : list value :=
  match vs with
  | [] => []
  | v :: rest => v :: filter (λ x, x ≠ v) (first_occurrences rest)
  end.

(** A store with the chain [{2}], [{2, 3}], [{1, 2, 3}]. *)
Definition chain_heap : heap :=
  <[0 := [VNum 2]]>
    (<[1 := [VNum 2; VNum 3]]> (<[2 := [VNum 1; VNum 2; VNum 3]]> ∅)).

(** The call [c] returns, and every set of the store it leaves holds each of
    its elements once. *)
Definition keeps_wf {A} (h : heap) (c : M A) : Prop :=
  ∃ r h', c h = Ok r h' ∧ heap_wf h'.

(** [S.filter(p).first] *)
Definition filter_first (S : loc) (func : jsfun) (thisArg : value) : M value :=
  f ← SuperSet.filter S func thisArg;
  SuperSet.first f.

(** [S.update(I).first] *)
Definition update_first (fuel : nat) (S : loc) (I : iterable) : M value :=
  s ← SuperSet.update fuel S I;
  SuperSet.first s.

(** [S.update(I).update(I)] *)
Definition update_twice (fuel : nat) (S : loc) (I : iterable) : M loc :=
  s ← SuperSet.update fuel S I;
  SuperSet.update fuel s I.

(** [A.union(B).join(separator)] *)
Definition union_join (ToString : value → string) (A B : loc)
  (separator : value) : M string :=
  u ← SuperSet.union A B;
  SuperSet.join ToString u separator.

(** [S.filter(p).isSubsetOf(S)] *)
Definition filter_subset (S : loc) (func : jsfun) (thisArg : value) : M bool :=
  f ← SuperSet.filter S func thisArg;
  SuperSet.isSubsetOf f S.

(** [S.filter(p).union(S.subtract(S.filter(p))).equals(S)] *)
Definition filter_complement_law (S : loc) (func : jsfun) (thisArg : value)
  : M bool :=
  f ← SuperSet.filter S func thisArg;
  g ← SuperSet.filter S func thisArg;
  d ← SuperSet.subtract S g;
  u ← SuperSet.union f d;
  SuperSet.equals u S.

(** [A.subtract(B).intersect(B).size] *)
Definition subtract_intersect_size (A B : loc) : M nat :=
  d ← SuperSet.subtract A B;
  i ← SuperSet.intersect d B;
  JSSet.size i.

(** [A.intersect(B).equals(B.intersect(A))] *)
Definition intersect_comm_law (A B : loc) : M bool :=
  i ← SuperSet.intersect A B;
  j ← SuperSet.intersect B A;
  SuperSet.equals i j.

(** [A.intersect(B).equals(A.subtract(A.subtract(B)))] *)
Definition intersect_subtract_law (A B : loc) : M bool :=
  i ← SuperSet.intersect A B;
  d ← SuperSet.subtract A B;
  e ← SuperSet.subtract A d;
  SuperSet.equals i e.

(** [A.union(B).union(C).equals(A.union(B.union(C)))] *)
Definition union_assoc_law (A B C : loc) : M bool :=
  ab ← SuperSet.union A B;
  l ← SuperSet.union ab C;
  bc ← SuperSet.union B C;
  r ← SuperSet.union A bc;
  SuperSet.equals l r.

(** [A.xor(B).equals(B.xor(A))] *)
Definition xor_comm_law (A B : loc) : M bool :=
  x ← SuperSet.xor A B;
  y ← SuperSet.xor B A;
  SuperSet.equals x y.

(** [A.xor(B).xor(B).equals(A)] *)
Definition xor_twice_law (A B : loc) : M bool :=
  x ← SuperSet.xor A B;
  y ← SuperSet.xor x B;
  SuperSet.equals y A.

(** * Properties *)

(** ** Running a computation *)

Lemma bind_Ok {A B} (c : M A) (k : A → M B) h a h' :
  c h = Ok a h' → (c ≫= k) h = k a h'.
Proof. intros E. unfold mbind, M_bind. by rewrite E. Qed.

Ltac run := unfold mbind, M_bind, mret, M_ret, throw; simpl.

(** ** Adding to the contents of a set *)

Lemma elem_of_add_data x d v : x ∈ JSSet.add_data d v ↔ x ∈ d ∨ x = v.
Proof.
  unfold JSSet.add_data. case_decide as Hv.
  - split; [by left | intros [?| ->]; done].
  - rewrite elem_of_app, list_elem_of_singleton. done.
Qed.

Lemma NoDup_add_data d v : NoDup d → NoDup (JSSet.add_data d v).
Proof.
  intros Hd. unfold JSSet.add_data. case_decide as Hv; [done|].
  apply NoDup_app. split_and!; [done | | apply NoDup_singleton].
  intros x Hx ->%list_elem_of_singleton. done.
Qed.

Lemma added_nil d : added d [] = d.
Proof. done. Qed.

Lemma added_cons d v vs : added d (v :: vs) = added (JSSet.add_data d v) vs.
Proof. done. Qed.

Lemma added_app d xs ys : added d (xs ++ ys) = added (added d xs) ys.
Proof. apply foldl_app. Qed.

Lemma elem_of_added x d vs : x ∈ added d vs ↔ x ∈ d ∨ x ∈ vs.
Proof.
  revert d. induction vs as [|v vs IH]; intros d.
  - rewrite added_nil, elem_of_nil. tauto.
  - rewrite added_cons, IH, elem_of_add_data, elem_of_cons. tauto.
Qed.

Lemma NoDup_added d vs : NoDup d → NoDup (added d vs).
Proof.
  revert d. induction vs as [|v vs IH]; intros d Hd; [done|].
  rewrite added_cons. by apply IH, NoDup_add_data.
Qed.

Lemma added_NoDup_app d vs : NoDup (d ++ vs) → added d vs = d ++ vs.
Proof.
  revert d. induction vs as [|v vs IH]; intros d Hd.
  - by rewrite added_nil, app_nil_r.
  - rewrite added_cons. unfold JSSet.add_data.
    apply NoDup_app in Hd as Hd'. destruct Hd' as (_ & Hdisj & _).
    case_decide as Hv.
    + exfalso. apply (Hdisj v Hv). by left.
    + rewrite IH; rewrite <- app_assoc; done.
Qed.

Lemma added_NoDup vs : NoDup vs → added [] vs = vs.
Proof. intros. by apply (added_NoDup_app []). Qed.

Lemma length_added_le d vs : length (added d vs) ≤ length d + length vs.
Proof.
  revert d. induction vs as [|v vs IH]; intros d.
  - rewrite added_nil. simpl. lia.
  - rewrite added_cons. etrans; [apply IH|].
    unfold JSSet.add_data. case_decide; rewrite ?length_app; simpl; lia.
Qed.

Lemma length_added_ge d vs : length d ≤ length (added d vs).
Proof.
  revert d. induction vs as [|v vs IH]; intros d; [done|].
  rewrite added_cons. etrans; [|apply IH].
  unfold JSSet.add_data. case_decide; rewrite ?length_app; simpl; lia.
Qed.

Lemma length_added_eq d vs :
  NoDup d → length (added d vs) = length d + length vs ↔ NoDup (d ++ vs).
Proof.
  revert d. induction vs as [|v vs IH]; intros d Hd.
  - rewrite added_nil, app_nil_r. simpl. split; [done | lia].
  - rewrite added_cons. unfold JSSet.add_data. case_decide as Hv.
    + split.
      * pose proof (length_added_le d vs). simpl. lia.
      * intros (_ & Hdisj & _)%NoDup_app. exfalso.
        apply (Hdisj v Hv). by left.
    + assert (NoDup (d ++ [v])) as Hd'.
      { pose proof (NoDup_add_data d v Hd) as H.
        unfold JSSet.add_data in H. by rewrite decide_False in H. }
      specialize (IH (d ++ [v]) Hd').
      rewrite length_app in IH. simpl in *.
      rewrite <- app_assoc in IH. simpl in IH.
      rewrite <- IH. lia.
Qed.

(** ** The built-in set operations *)

Lemma data_Ok h l d : h !! l = Some d → JSSet.data l h = Ok d h.
Proof. intros E. unfold JSSet.data. by rewrite E. Qed.

Lemma size_Ok h l d : h !! l = Some d → JSSet.size l h = Ok (length d) h.
Proof. intros E. unfold JSSet.size. by rewrite (bind_Ok _ _ _ _ _ (data_Ok _ _ _ E)). Qed.

Lemma has_Ok h l d v :
  h !! l = Some d → JSSet.has l v h = Ok (bool_decide (v ∈ d)) h.
Proof. intros E. unfold JSSet.has. by rewrite (bind_Ok _ _ _ _ _ (data_Ok _ _ _ E)). Qed.

Lemma add_Ok h l d v :
  h !! l = Some d → JSSet.add l v h = Ok l (<[l := JSSet.add_data d v]> h).
Proof. intros E. unfold JSSet.add. by rewrite (bind_Ok _ _ _ _ _ (data_Ok _ _ _ E)). Qed.

Lemma add_all_Ok h l d vs :
  h !! l = Some d → JSSet.add_all l vs h = Ok tt (<[l := added d vs]> h).
Proof.
  revert h d. induction vs as [|v vs IH]; intros h d E.
  - rewrite added_nil, insert_id; done.
  - simpl. rewrite (bind_Ok _ _ _ _ _ (add_Ok _ _ _ v E)).
    rewrite (IH _ (JSSet.add_data d v)) by apply lookup_insert_eq.
    by rewrite insert_insert_eq.
Qed.

Lemma fresh_None (h : heap) : h !! fresh (dom h) = None.
Proof. apply not_elem_of_dom, is_fresh. Qed.

Lemma fresh_ne (h : heap) l d : h !! l = Some d → fresh (dom h) ≠ l.
Proof. intros E Heq. by rewrite <- Heq, fresh_None in E. Qed.

Lemma lookup_alloc (h : heap) l d d0 :
  h !! l = Some d → <[fresh (dom h) := d0]> h !! l = Some d.
Proof. intros E. rewrite lookup_insert_ne; [done|]. by eapply fresh_ne. Qed.

(** The constructor, when draining its source leaves the store alone. *)
Lemma new_Ok h src items :
  src (<[fresh (dom h) := []]> h) = Ok items (<[fresh (dom h) := []]> h) →
  SuperSet.new src h = Ok (fresh (dom h)) (<[fresh (dom h) := added [] items]> h).
Proof.
  intros E. unfold SuperSet.new.
  rewrite (bind_Ok JSSet.alloc _ h (fresh (dom h)) (<[fresh (dom h) := []]> h)) by done.
  rewrite (bind_Ok _ _ _ _ _ E).
  rewrite (bind_Ok _ _ _ _ _ (add_all_Ok _ _ [] items (lookup_insert_eq _ _ _))).
  by rewrite insert_insert_eq.
Qed.


Lemma allocates_fresh (h : heap) d :
  allocates h (fresh (dom h)) d (<[fresh (dom h) := d]> h).
Proof. split; [apply fresh_None | done]. Qed.

Lemma allocates_lookup h l d h' k dk :
  allocates h l d h' → h !! k = Some dk → h' !! k = Some dk ∧ l ≠ k.
Proof.
  intros [Hl ->] Hk. assert (l ≠ k) by (intros ->; congruence).
  by rewrite lookup_insert_ne.
Qed.

Lemma allocates_lookup_new h l d h' : allocates h l d h' → h' !! l = Some d.
Proof. intros [_ ->]. apply lookup_insert_eq. Qed.

Lemma heap_wf_insert h l d : heap_wf h → NoDup d → heap_wf (<[l := d]> h).
Proof.
  intros Hwf Hd k dk. rewrite lookup_insert. case_decide.
  - by intros [= <-].
  - apply Hwf.
Qed.

(** ** Functions *)

Lemma computes_Closure h f this : computes h (Closure f) this (f this).
Proof. by intros args. Qed.

Lemma computes_has h l d :
  h !! l = Some d →
  computes h Set_prototype_has (VSet l)
    (λ args, VBool (bool_decide (arg 0 args ∈ d))).
Proof. intros E args. simpl. by rewrite (bind_Ok _ _ _ _ _ (has_Ok _ _ _ _ E)). Qed.

Lemma computes_bind h f thisArg this g :
  computes h f thisArg g → computes h (bind f thisArg) this g.
Proof. intros Hf args. apply Hf. Qed.

(** ** Generators and loops *)

Section loops.
Context (h : heap) (this : loc) (check : jsfun) (g : list value → value).
Hypothesis Hcheck : computes h check VUndefined g.

Lemma mapGen_loop_Ok items :
  mapGen_loop this check items h = Ok (answer g this <$> items) h.
Proof.
  induction items as [|itm rest IH]; [done|]. simpl.
  rewrite (bind_Ok _ _ _ _ _ (Hcheck _)), (bind_Ok _ _ _ _ _ IH). done.
Qed.

Lemma filterGen_loop_Ok items :
  filterGen_loop this check items h
  = Ok (filter (λ itm, truthy (answer g this itm)) items) h.
Proof.
  induction items as [|itm rest IH]; [done|]. simpl.
  rewrite (bind_Ok _ _ _ _ _ (Hcheck _)), (bind_Ok _ _ _ _ _ IH).
  rewrite filter_cons. fold (answer g this itm).
  by destruct (truthy (answer g this itm)).
Qed.

Lemma every_loop_Ok items :
  SuperSet.every_loop this check items h
  = Ok (forallb (λ itm, truthy (answer g this itm)) items) h.
Proof.
  induction items as [|itm rest IH]; [done|]. simpl.
  rewrite (bind_Ok _ _ _ _ _ (Hcheck _)). fold (answer g this itm).
  by destruct (truthy (answer g this itm)).
Qed.

Lemma some_loop_Ok items :
  SuperSet.some_loop this check items h
  = Ok (existsb (λ itm, truthy (answer g this itm)) items) h.
Proof.
  induction items as [|itm rest IH]; [done|]. simpl.
  rewrite (bind_Ok _ _ _ _ _ (Hcheck _)). fold (answer g this itm).
  by destruct (truthy (answer g this itm)).
Qed.
End loops.

Lemma subtractGen_loop_Ok h set2 B items :
  h !! set2 = Some B →
  subtractGen_loop set2 items h = Ok (filter (λ itm, itm ∉ B) items) h.
Proof.
  intros E. induction items as [|itm rest IH]; [done|]. simpl.
  rewrite (bind_Ok _ _ _ _ _ (has_Ok _ _ _ itm E)), (bind_Ok _ _ _ _ _ IH).
  rewrite filter_cons. run. by repeat case_decide; case_bool_decide.
Qed.

Lemma subtractGen_Ok h set1 set2 A B :
  h !! set1 = Some A → h !! set2 = Some B →
  subtractGen set1 set2 h = Ok (filter (λ itm, itm ∉ B) A) h.
Proof.
  intros EA EB. unfold subtractGen, JSSet.values.
  rewrite (bind_Ok _ _ _ _ _ (data_Ok _ _ _ EA)).
  by apply subtractGen_loop_Ok.
Qed.

Lemma unionGen_Ok h (set1 set2 : generator) xs ys :
  set1 h = Ok xs h → set2 h = Ok ys h → unionGen set1 set2 h = Ok (xs ++ ys) h.
Proof.
  intros E1 E2. unfold unionGen.
  by rewrite (bind_Ok _ _ _ _ _ E1), (bind_Ok _ _ _ _ _ E2).
Qed.

(** ** The methods that read *)

Lemma every_Ok h this A func thisArg g :
  h !! this = Some A → computes h func thisArg g →
  SuperSet.every this func thisArg h
  = Ok (forallb (λ itm, truthy (answer g this itm)) A) h.
Proof.
  intros E Hf. unfold SuperSet.every, JSSet.values.
  rewrite (bind_Ok _ _ _ _ _ (data_Ok _ _ _ E)).
  apply every_loop_Ok. by apply computes_bind.
Qed.

Lemma some_Ok h this A func thisArg g :
  h !! this = Some A → computes h func thisArg g →
  SuperSet.some this func thisArg h
  = Ok (existsb (λ itm, truthy (answer g this itm)) A) h.
Proof.
  intros E Hf. unfold SuperSet.some, JSSet.values.
  rewrite (bind_Ok _ _ _ _ _ (data_Ok _ _ _ E)).
  apply some_loop_Ok. by apply computes_bind.
Qed.

Lemma isSubsetOf_Ok h a b A B :
  h !! a = Some A → h !! b = Some B →
  SuperSet.isSubsetOf a b h = Ok (forallb (λ itm, bool_decide (itm ∈ B)) A) h.
Proof.
  intros EA EB. unfold SuperSet.isSubsetOf.
  by rewrite (every_Ok _ _ _ _ _ _ EA (computes_has _ _ _ EB)).
Qed.

Lemma equals_Ok h a b A B :
  h !! a = Some A → h !! b = Some B →
  SuperSet.equals a b h
  = Ok ((length A =? length B) && forallb (λ itm, bool_decide (itm ∈ B)) A) h.
Proof.
  intros EA EB. unfold SuperSet.equals.
  rewrite (bind_Ok _ _ _ _ _ (size_Ok _ _ _ EA)).
  rewrite (bind_Ok _ _ _ _ _ (size_Ok _ _ _ EB)).
  destruct (length A =? length B); [by apply isSubsetOf_Ok | done].
Qed.

Lemma forallb_elem_of (A B : list value) :
  forallb (λ itm, bool_decide (itm ∈ B)) A = true ↔ ∀ x, x ∈ A → x ∈ B.
Proof.
  rewrite forallb_forall. setoid_rewrite <- list_elem_of_In.
  setoid_rewrite bool_decide_eq_true. done.
Qed.

(** Two sets of the same size, one inside the other, hold the same
    elements; this is where the absence of duplicates is used. *)
Lemma same_size_subset A B :
  NoDup A → length A = length B → (∀ x, x ∈ A → x ∈ B) → same_elements A B.
Proof.
  intros HA Hlen Hsub.
  assert (A ≡ₚ B) as HP.
  { apply submseteq_length_Permutation; [by apply NoDup_submseteq | lia]. }
  intros x. by rewrite HP.
Qed.

Lemma same_elements_length A B :
  NoDup A → NoDup B → same_elements A B → length A = length B.
Proof. intros HA HB HE. by rewrite (NoDup_Permutation A B HA HB HE). Qed.

Lemma equals_true h a b A B :
  h !! a = Some A → h !! b = Some B → NoDup A → NoDup B →
  same_elements A B → SuperSet.equals a b h = Ok true h.
Proof.
  intros EA EB HA HB HE. rewrite (equals_Ok _ _ _ _ _ EA EB).
  rewrite (same_elements_length A B) by done. rewrite Nat.eqb_refl. simpl.
  f_equal. apply forallb_elem_of. intros x. apply HE.
Qed.

(** ** The methods that build a set *)

Lemma map_spec h this A func thisArg g :
  h !! this = Some A →
  computes (<[fresh (dom h) := []]> h) func thisArg g →
  ∃ r h', SuperSet.map this func thisArg h = Ok r h'
          ∧ allocates h r (added [] (answer g this <$> A)) h'.
Proof.
  intros E Hf. eexists _, _. split; [|apply allocates_fresh].
  apply new_Ok. unfold mapGen, JSSet.values.
  rewrite (bind_Ok _ _ _ _ _ (data_Ok _ _ _ (lookup_alloc _ _ _ _ E))).
  apply mapGen_loop_Ok. by apply computes_bind.
Qed.

Lemma filter_spec h this A func thisArg g :
  h !! this = Some A →
  computes (<[fresh (dom h) := []]> h) func thisArg g →
  ∃ r h', SuperSet.filter this func thisArg h = Ok r h'
          ∧ allocates h r
              (added [] (filter (λ itm, truthy (answer g this itm)) A)) h'.
Proof.
  intros E Hf. eexists _, _. split; [|apply allocates_fresh].
  apply new_Ok. unfold filterGen, JSSet.values.
  rewrite (bind_Ok _ _ _ _ _ (data_Ok _ _ _ (lookup_alloc _ _ _ _ E))).
  apply filterGen_loop_Ok. by apply computes_bind.
Qed.

Lemma union_spec h a b A B :
  h !! a = Some A → h !! b = Some B →
  ∃ r h', SuperSet.union a b h = Ok r h' ∧ allocates h r (added [] (A ++ B)) h'.
Proof.
  intros EA EB. eexists _, _. split; [|apply allocates_fresh].
  apply new_Ok, unionGen_Ok; apply data_Ok; by apply lookup_alloc.
Qed.

Lemma subtract_spec h a b A B :
  h !! a = Some A → h !! b = Some B →
  ∃ r h', SuperSet.subtract a b h = Ok r h'
          ∧ allocates h r (added [] (filter (λ itm, itm ∉ B) A)) h'.
Proof.
  intros EA EB. eexists _, _. split; [|apply allocates_fresh].
  apply new_Ok, subtractGen_Ok; by apply lookup_alloc.
Qed.

Lemma intersect_spec h a b A B :
  h !! a = Some A → h !! b = Some B →
  ∃ r h', SuperSet.intersect a b h = Ok r h'
          ∧ allocates h r (added [] (filter (λ itm, itm ∈ B) A)) h'.
Proof.
  intros EA EB.
  destruct (filter_spec h a A Set_prototype_has (VSet b) _ EA
              (computes_has _ _ _ (lookup_alloc _ _ _ [] EB)))
    as (r & h' & E & Hal).
  exists r, h'. split; [done|].
  erewrite list_filter_iff; [exact Hal|].
  intros x. unfold answer, arg. simpl. by rewrite bool_decide_spec.
Qed.

Lemma xor_spec h a b A B :
  h !! a = Some A → h !! b = Some B →
  ∃ r h', SuperSet.xor a b h = Ok r h'
          ∧ allocates h r
              (added [] (filter (λ itm, itm ∉ B) A ++ filter (λ itm, itm ∉ A) B)) h'.
Proof.
  intros EA EB. eexists _, _. split; [|apply allocates_fresh].
  apply new_Ok, unionGen_Ok; apply subtractGen_Ok; by apply lookup_alloc.
Qed.

(** ** reduce *)

Lemma reduce_loop_Closure h this f acc items :
  SuperSet.reduce_loop this (Closure f) acc items h
  = Ok (fold_left (λ acc itm, f VUndefined [acc; itm; itm; VSet this]) items acc) h.
Proof. revert acc. induction items as [|itm rest IH]; intros acc; [done|]. apply IH. Qed.

(** C1. On an empty set, [reduce(func)] without an initial value throws the
    error the method reserves for that case, and [reduce(func, v)] returns
    [v] for every supplied [v], the store untouched; [v = 0] gives [0]. The
    combine function is never called, so it may be any function. *)
Theorem reduce_empty_set (h : heap) (this : loc) (func : jsfun) :
  h !! this = Some [] →
  SuperSet.reduce this func None h
  = Throw (TypeError "An initial value is required when using an empty set.")
  ∧ (∀ v, SuperSet.reduce this func (Some v) h = Ok v h)
  ∧ SuperSet.reduce this func (Some (VNum 0)) h = Ok (VNum 0) h.
Proof.
  intros E.
  assert (∀ v, SuperSet.reduce this func (Some v) h = Ok v h) as Hsome.
  { intros v. unfold SuperSet.reduce, JSSet.values.
    rewrite (bind_Ok _ _ _ _ _ (size_Ok _ _ _ E)). simpl.
    by rewrite (bind_Ok _ _ _ _ _ (data_Ok _ _ _ E)). }
  split_and!; [|done|done].
  unfold SuperSet.reduce. by rewrite (bind_Ok _ _ _ _ _ (size_Ok _ _ _ E)).
Qed.

Lemma reduce_empty_set_witness :
  SuperSet.reduce 0 Set_prototype_has None {[0 := []]}
  = Throw (TypeError "An initial value is required when using an empty set.")
  ∧ (∀ v, SuperSet.reduce 0 Set_prototype_has (Some v) {[0 := []]}
          = Ok v {[0 := []]})
  ∧ SuperSet.reduce 0 Set_prototype_has (Some (VNum 0)) {[0 := []]}
    = Ok (VNum 0) {[0 := []]}.
Proof. apply (reduce_empty_set {[0 := []]} 0 Set_prototype_has). reflexivity. Defined.

(** C2. On a non-empty set whose iteration order is [x :: xs],
    [reduce(f)] starts from [x] and folds [f] over [xs] alone, one call per
    remaining element, while [reduce(f, undefined)] starts from [undefined]
    and folds [f] over [x :: xs], one call per element, the first included;
    the same holds for every explicitly passed initial value. Each call is
    [f(accumulator, itm, itm, set)]. *)
Theorem reduce_omitted_or_explicit (h : heap) (this : loc)
    (f : value → list value → value) (x : value) (xs : list value) :
  h !! this = Some (x :: xs) →
  let step := λ acc itm, f VUndefined [acc; itm; itm; VSet this] in
  SuperSet.reduce this (Closure f) None h = Ok (fold_left step xs x) h
  ∧ SuperSet.reduce this (Closure f) (Some VUndefined) h
    = Ok (fold_left step (x :: xs) VUndefined) h
  ∧ ∀ v, SuperSet.reduce this (Closure f) (Some v) h
         = Ok (fold_left step (x :: xs) v) h.
Proof.
  intros E step.
  assert (∀ v, SuperSet.reduce this (Closure f) (Some v) h
               = Ok (fold_left step (x :: xs) v) h) as Hsome.
  { intros v. unfold SuperSet.reduce, JSSet.values.
    rewrite (bind_Ok _ _ _ _ _ (size_Ok _ _ _ E)). simpl.
    rewrite (bind_Ok _ _ _ _ _ (data_Ok _ _ _ E)). simpl.
    apply (reduce_loop_Closure h this f _ xs). }
  split_and!; [|done|done].
  unfold SuperSet.reduce, JSSet.values.
  rewrite (bind_Ok _ _ _ _ _ (size_Ok _ _ _ E)). simpl.
  rewrite (bind_Ok _ _ _ _ _ (data_Ok _ _ _ E)). simpl.
  apply reduce_loop_Closure.
Qed.

(** ** every, some, isSubsetOf, equals *)

(** C7. [every(p)] is true exactly when [p] answers a truthy value for every
    element, and [some(p)] exactly when it does for at least one; on the
    empty set [every] is true and [some] is false. *)
Theorem every_some_truthy (h : heap) (this : loc) (A : list value)
    (p : value → list value → value) (thisArg : value) :
  h !! this = Some A →
  ∃ e s : bool,
    SuperSet.every this (Closure p) thisArg h = Ok e h
    ∧ SuperSet.some this (Closure p) thisArg h = Ok s h
    ∧ (e = true ↔ ∀ x, x ∈ A → truthy (p thisArg [x; x; VSet this]) = true)
    ∧ (s = true ↔ ∃ x, x ∈ A ∧ truthy (p thisArg [x; x; VSet this]) = true)
    ∧ (A = [] → e = true ∧ s = false).
Proof.
  intros E. eexists _, _. split_and!.
  - apply (every_Ok h this A _ thisArg (p thisArg) E), computes_Closure.
  - apply (some_Ok h this A _ thisArg (p thisArg) E), computes_Closure.
  - rewrite forallb_forall. by setoid_rewrite <- list_elem_of_In.
  - rewrite existsb_exists. by setoid_rewrite <- list_elem_of_In.
  - by intros ->.
Qed.

(** C3. [A.equals(B)] is true exactly when [A.isSubsetOf(B)] and
    [B.isSubsetOf(A)] are both true, and exactly when the two sizes are the
    same and [A.isSubsetOf(B)] is true. Here [A.isSubsetOf(B)] is true
    exactly when every element of [A] is an element of [B], the sizes are
    the numbers of elements, and so [A.equals(B)] is true exactly when the
    two sets hold the same elements. None of the calls changes the store. *)
Theorem equals_iff_mutual_subset (h : heap) (a b : loc) (A B : list value) :
  h !! a = Some A → h !! b = Some B → NoDup A → NoDup B →
  ∃ (e s1 s2 : bool) (na nb : nat),
    SuperSet.equals a b h = Ok e h
    ∧ SuperSet.isSubsetOf a b h = Ok s1 h
    ∧ SuperSet.isSubsetOf b a h = Ok s2 h
    ∧ JSSet.size a h = Ok na h
    ∧ JSSet.size b h = Ok nb h
    ∧ (s1 = true ↔ ∀ x, x ∈ A → x ∈ B)
    ∧ (s2 = true ↔ ∀ x, x ∈ B → x ∈ A)
    ∧ na = length A
    ∧ nb = length B
    ∧ (e = true ↔ ∀ x, x ∈ A ↔ x ∈ B)
    ∧ (e = true ↔ s1 = true ∧ s2 = true)
    ∧ (e = true ↔ na = nb ∧ s1 = true).
Proof.
  intros EA EB HA HB. eexists _, _, _, _, _. split_and!.
  - by apply equals_Ok.
  - by apply isSubsetOf_Ok.
  - by apply isSubsetOf_Ok.
  - by apply size_Ok.
  - by apply size_Ok.
  - apply forallb_elem_of.
  - apply forallb_elem_of.
  - done.
  - done.
  - rewrite andb_true_iff, Nat.eqb_eq, forallb_elem_of. split.
    + intros [Hlen Hsub]. by apply (same_size_subset A B).
    + intros HE. split; [by apply same_elements_length|]. intros x. apply HE.
  - rewrite andb_true_iff, Nat.eqb_eq, !forallb_elem_of. split.
    + intros [Hlen Hsub]. split; [done|].
      intros x. by apply (same_size_subset A B).
    + intros [Hab Hba]. split; [|done].
      apply same_elements_length; [done..|]. intros x. split; auto.
  - by rewrite andb_true_iff, Nat.eqb_eq.
Qed.

(** ** Set algebra *)

Lemma elem_of_subtracted x (A B : list value) :
  x ∈ filter (λ itm, itm ∉ B) A ↔ x ∈ A ∧ x ∉ B.
Proof. rewrite list_elem_of_filter. tauto. Qed.

Lemma elem_of_intersected x (A B : list value) :
  x ∈ filter (λ itm, itm ∈ B) A ↔ x ∈ A ∧ x ∈ B.
Proof. rewrite list_elem_of_filter. tauto. Qed.

(** C6. The size of [A.union(B)] is at most the sum of the sizes of [A] and
    [B], and it is that sum exactly when no element of [A] is in [B]. *)
Theorem union_size_bound (h : heap) (a b : loc) (A B : list value) :
  h !! a = Some A → h !! b = Some B → NoDup A → NoDup B →
  ∃ (n na nb : nat) (h' : heap),
    union_size a b h = Ok n h'
    ∧ JSSet.size a h = Ok na h
    ∧ JSSet.size b h = Ok nb h
    ∧ n ≤ na + nb
    ∧ (n = na + nb ↔ ∀ x, x ∈ A → x ∉ B).
Proof.
  intros EA EB HA HB.
  destruct (union_spec h a b A B EA EB) as (u & h1 & Eu & Hal).
  exists (length (added [] (A ++ B))), (length A), (length B), h1.
  split_and!; [|by apply size_Ok..| |].
  - unfold union_size. rewrite (bind_Ok _ _ _ _ _ Eu).
    apply size_Ok. by eapply allocates_lookup_new.
  - pose proof (length_added_le [] (A ++ B)) as Hle.
    rewrite length_app in Hle. simpl in Hle. done.
  - pose proof (length_added_eq [] (A ++ B) (NoDup_nil_2)) as Heq.
    rewrite length_app in Heq. simpl in Heq. rewrite Heq, NoDup_app.
    split; [by intros (_ & ? & _) | by intros].
Qed.

(** C10. [A.union(B).equals(B.union(A))] is true: the two unions list their
    elements in different orders and hold the same ones. *)
Theorem union_commutes (h : heap) (a b : loc) (A B : list value) :
  h !! a = Some A → h !! b = Some B →
  ∃ h', union_comm_law a b h = Ok true h'.
Proof.
  intros EA EB. unfold union_comm_law.
  destruct (union_spec h a b A B EA EB) as (u & h1 & Eu & Hu).
  rewrite (bind_Ok _ _ _ _ _ Eu).
  destruct (allocates_lookup _ _ _ _ _ _ Hu EA) as [EA1 _].
  destruct (allocates_lookup _ _ _ _ _ _ Hu EB) as [EB1 _].
  pose proof (allocates_lookup_new _ _ _ _ Hu) as EU1.
  destruct (union_spec h1 b a B A EB1 EA1) as (v & h2 & Ev & Hv).
  rewrite (bind_Ok _ _ _ _ _ Ev).
  destruct (allocates_lookup _ _ _ _ _ _ Hv EU1) as [EU2 _].
  pose proof (allocates_lookup_new _ _ _ _ Hv) as EV2.
  exists h2. apply (equals_true _ _ _ _ _ EU2 EV2).
  - apply NoDup_added, NoDup_nil_2.
  - apply NoDup_added, NoDup_nil_2.
  - intros x. rewrite !elem_of_added, !elem_of_app, elem_of_nil. tauto.
Qed.

(** C4. [A.subtract(B).union(A.intersect(B)).equals(A)] is true: the part of
    [A] outside [B] and the part inside [B] make up [A]. *)
Theorem subtract_intersect_partition (h : heap) (a b : loc) (A B : list value) :
  h !! a = Some A → h !! b = Some B → NoDup A →
  ∃ h', partition_law a b h = Ok true h'.
Proof.
  intros EA EB HA. unfold partition_law.
  destruct (subtract_spec h a b A B EA EB) as (s & h1 & Es & Hs).
  rewrite (bind_Ok _ _ _ _ _ Es).
  destruct (allocates_lookup _ _ _ _ _ _ Hs EA) as [EA1 _].
  destruct (allocates_lookup _ _ _ _ _ _ Hs EB) as [EB1 _].
  pose proof (allocates_lookup_new _ _ _ _ Hs) as ES1.
  destruct (intersect_spec h1 a b A B EA1 EB1) as (i & h2 & Ei & Hi).
  rewrite (bind_Ok _ _ _ _ _ Ei).
  destruct (allocates_lookup _ _ _ _ _ _ Hi EA1) as [EA2 _].
  destruct (allocates_lookup _ _ _ _ _ _ Hi ES1) as [ES2 _].
  pose proof (allocates_lookup_new _ _ _ _ Hi) as EI2.
  destruct (union_spec h2 s i _ _ ES2 EI2) as (u & h3 & Eu & Hu).
  rewrite (bind_Ok _ _ _ _ _ Eu).
  destruct (allocates_lookup _ _ _ _ _ _ Hu EA2) as [EA3 _].
  pose proof (allocates_lookup_new _ _ _ _ Hu) as EU3.
  exists h3. apply (equals_true _ _ _ _ _ EU3 EA3); [|done|].
  - apply NoDup_added, NoDup_nil_2.
  - intros x.
    rewrite !elem_of_added, elem_of_app, !elem_of_added, elem_of_nil.
    rewrite elem_of_subtracted, elem_of_intersected.
    destruct (decide (x ∈ B)); tauto.
Qed.

(** C5. [A.xor(B).equals(A.subtract(B).union(B.subtract(A)))] is true, and
    the set [A.xor(B)] holds exactly the values that are in one of [A] and
    [B] and not in the other, each once. *)
Theorem xor_is_composed (h : heap) (a b : loc) (A B : list value) :
  h !! a = Some A → h !! b = Some B →
  ∃ (x : loc) (h1 : heap) (X : list value),
    SuperSet.xor a b h = Ok x h1
    ∧ h1 !! x = Some X
    ∧ NoDup X
    ∧ (∀ v, v ∈ X ↔ in_exactly_one A B v)
    ∧ ∃ h', xor_law a b h = Ok true h'.
Proof.
  intros EA EB.
  destruct (xor_spec h a b A B EA EB) as (x & h1 & Ex & Hx).
  destruct (allocates_lookup _ _ _ _ _ _ Hx EA) as [EA1 _].
  destruct (allocates_lookup _ _ _ _ _ _ Hx EB) as [EB1 _].
  pose proof (allocates_lookup_new _ _ _ _ Hx) as EX1.
  eexists x, h1, _. split_and!; [done | done | | |].
  - apply NoDup_added, NoDup_nil_2.
  - intros v. unfold in_exactly_one.
    rewrite elem_of_added, elem_of_app, !elem_of_subtracted, elem_of_nil. tauto.
  - unfold xor_law. rewrite (bind_Ok _ _ _ _ _ Ex).
    destruct (subtract_spec h1 a b A B EA1 EB1) as (s & h2 & Es & Hs).
    destruct (allocates_lookup _ _ _ _ _ _ Hs EA1) as [EA2 _].
    destruct (allocates_lookup _ _ _ _ _ _ Hs EB1) as [EB2 _].
    destruct (allocates_lookup _ _ _ _ _ _ Hs EX1) as [EX2 _].
    pose proof (allocates_lookup_new _ _ _ _ Hs) as ES2.
    destruct (subtract_spec h2 b a B A EB2 EA2) as (t & h3 & Et & Ht).
    destruct (allocates_lookup _ _ _ _ _ _ Ht ES2) as [ES3 _].
    destruct (allocates_lookup _ _ _ _ _ _ Ht EX2) as [EX3 _].
    pose proof (allocates_lookup_new _ _ _ _ Ht) as ET3.
    destruct (union_spec h3 s t _ _ ES3 ET3) as (u & h4 & Eu & Hu).
    destruct (allocates_lookup _ _ _ _ _ _ Hu EX3) as [EX4 _].
    pose proof (allocates_lookup_new _ _ _ _ Hu) as EU4.
    assert (xor_composed a b h1 = Ok u h4) as Ec.
    { unfold xor_composed.
      by rewrite (bind_Ok _ _ _ _ _ Es), (bind_Ok _ _ _ _ _ Et). }
    rewrite (bind_Ok _ _ _ _ _ Ec).
    exists h4. apply (equals_true _ _ _ _ _ EX4 EU4).
    + apply NoDup_added, NoDup_nil_2.
    + apply NoDup_added, NoDup_nil_2.
    + intros v.
      rewrite !elem_of_added, !elem_of_app, !elem_of_added, !elem_of_nil. tauto.
Qed.

(** ** update *)

Lemma added_subset d vs : (∀ x, x ∈ vs → x ∈ d) → added d vs = d.
Proof.
  induction vs as [|v vs IH]; intros Hsub; [done|].
  rewrite added_cons. unfold JSSet.add_data.
  rewrite decide_True by (apply Hsub; by left).
  apply IH. intros x Hx. apply Hsub. by right.
Qed.

Lemma iterator_next_array vs i (h : heap) :
  iterator_next (IArray vs) i h = Ok (vs !! i) h.
Proof. done. Qed.

Lemma iterator_next_set l vs i (h : heap) :
  h !! l = Some vs → iterator_next (ISet l) i h = Ok (vs !! i) h.
Proof. intros E. simpl. by rewrite (bind_Ok _ _ _ _ _ (data_Ok _ _ _ E)). Qed.

(** Walking an array or another set: what is walked stays as it is while
    [this] grows. *)
Lemma update_loop_stable fuel this it vs (h : heap) :
  (∀ d i, iterator_next it i (<[this := d]> h) = Ok (vs !! i) (<[this := d]> h)) →
  ∀ i d, length vs - i < fuel →
    SuperSet.update_loop fuel this it i (<[this := d]> h)
    = Ok tt (<[this := added d (drop i vs)]> h).
Proof.
  intros Hnext. induction fuel as [|fuel IH]; intros i d Hfuel; [lia|].
  simpl. rewrite (bind_Ok _ _ _ _ _ (Hnext d i)).
  destruct (vs !! i) as [itm|] eqn:Ei.
  - rewrite (bind_Ok _ _ _ _ _ (add_Ok _ _ _ itm (lookup_insert_eq _ _ _))).
    rewrite insert_insert_eq, IH, (drop_S _ _ _ Ei); [done|].
    apply lookup_lt_Some in Ei. lia.
  - apply lookup_ge_None in Ei. by rewrite drop_ge.
Qed.

(** Walking the set that is being updated: every value met is already
    there, so nothing is appended and the walk ends at the last element. *)
Lemma update_loop_self fuel this i h d :
  h !! this = Some d → length d - i < fuel →
  SuperSet.update_loop fuel this (ISet this) i h = Ok tt h.
Proof.
  revert i. induction fuel as [|fuel IH]; intros i Ed Hfuel; [lia|].
  cbn [SuperSet.update_loop].
  rewrite (bind_Ok _ _ _ _ _ (iterator_next_set _ _ i _ Ed)).
  destruct (d !! i) as [itm|] eqn:Ei; [|done].
  rewrite (bind_Ok _ _ _ _ _ (add_Ok _ _ _ itm Ed)).
  assert (JSSet.add_data d itm = d) as ->.
  { unfold JSSet.add_data. rewrite decide_True; [done|].
    by eapply list_elem_of_lookup_2. }
  rewrite insert_id by done. apply IH; [done|].
  apply lookup_lt_Some in Ei. lia.
Qed.

Lemma update_Ok fuel h this d it vs :
  h !! this = Some d → elements_of h it = Some vs → length vs < fuel →
  SuperSet.update fuel this it h = Ok this (<[this := added d vs]> h).
Proof.
  intros Ed Eit Hfuel. unfold SuperSet.update.
  destruct (decide (it = ISet this)) as [->|Hne].
  - simpl in Eit. assert (vs = d) as -> by congruence.
    rewrite (bind_Ok _ _ _ _ _ (update_loop_self fuel this 0 h d Ed ltac:(lia))).
    rewrite added_subset by done. by rewrite insert_id.
  - assert (∀ d' i, iterator_next it i (<[this := d']> h)
                     = Ok (vs !! i) (<[this := d']> h)) as Hnext.
    { intros d' i. destruct it as [ws|src]; simpl in Eit.
      - injection Eit as ->. apply iterator_next_array.
      - apply iterator_next_set. rewrite lookup_insert_ne; [done | congruence]. }
    rewrite <- (insert_id h this d Ed) at 1.
    by rewrite (bind_Ok _ _ _ _ _
                  (update_loop_stable fuel this it vs h Hnext 0 d ltac:(lia))).
Qed.

(** C8. [S.update(I)], for an array or a set [I] (which may be [S]
    itself), returns [S], the very object it was called on; afterwards [S]
    holds its previous elements followed by the new elements of [I], each
    value once, and no other object has changed. In particular
    [new SuperSet([1,2]).update([2,3]).equals(new SuperSet([1,2,3]))] is
    true. *)
Theorem update_in_place (fuel : nat) (h : heap) (this : loc) (d : list value)
    (it : iterable) (vs : list value) :
  h !! this = Some d → NoDup d →
  elements_of h it = Some vs → length vs < fuel →
  (∃ d', SuperSet.update fuel this it h = Ok this (<[this := d']> h)
         ∧ d' = added d vs
         ∧ NoDup d'
         ∧ ∀ x, x ∈ d' ↔ x ∈ d ∨ x ∈ vs)
  ∧ ∃ h', update_example 3 ∅ = Ok true h'.
Proof.
  intros Ed Hd Eit Hfuel. split.
  - exists (added d vs). split_and!.
    + by apply update_Ok.
    + done.
    + by apply NoDup_added.
    + intros x. apply elem_of_added.
  - eexists. vm_compute. reflexivity.
Qed.

(** ** New objects *)

Lemma allocates_returns_new h a b A B (c : M loc) r d h' :
  h !! a = Some A → h !! b = Some B →
  c h = Ok r h' → allocates h r d h' → returns_new_set h a b c.
Proof.
  intros EA EB E Hal. exists r, h'. split_and!.
  - done.
  - apply Hal.
  - rewrite (allocates_lookup_new _ _ _ _ Hal). eauto.
  - by destruct (allocates_lookup _ _ _ _ _ _ Hal EA).
  - by destruct (allocates_lookup _ _ _ _ _ _ Hal EB).
  - intros l Hl. destruct Hal as [_ ->]. by rewrite lookup_insert_ne.
Qed.

Lemma allocates_wf h l vs h' :
  allocates h l (added [] vs) h' → heap_wf h → heap_wf h'.
Proof.
  intros [_ ->] Hwf. apply heap_wf_insert; [done|].
  apply NoDup_added, NoDup_nil_2.
Qed.

(** C9. [map], [filter], [union], [subtract], [xor] and [intersect] each
    return a set object that did not exist before the call, hence another
    object than the receiver and than the argument, and every object that
    existed before the call, the two operands among them, holds after the
    call what it held before. [update] is the method that writes to its
    receiver: given one value the receiver lacks, it appends it in place. *)
Theorem derived_sets_are_new (h : heap) (a b : loc) (A B : list value)
    (f : value → list value → value) (thisArg : value) :
  h !! a = Some A → h !! b = Some B →
  returns_new_set h a b (SuperSet.map a (Closure f) thisArg)
  ∧ returns_new_set h a b (SuperSet.filter a (Closure f) thisArg)
  ∧ returns_new_set h a b (SuperSet.union a b)
  ∧ returns_new_set h a b (SuperSet.subtract a b)
  ∧ returns_new_set h a b (SuperSet.xor a b)
  ∧ returns_new_set h a b (SuperSet.intersect a b)
  ∧ ∀ v, v ∉ A →
      SuperSet.update 2 a (IArray [v]) h = Ok a (<[a := A ++ [v]]> h).
Proof.
  intros EA EB. split_and!.
  - destruct (map_spec h a A (Closure f) thisArg _ EA (computes_Closure _ _ _))
      as (r & h' & E & Hal).
    by eapply allocates_returns_new.
  - destruct (filter_spec h a A (Closure f) thisArg _ EA (computes_Closure _ _ _))
      as (r & h' & E & Hal).
    by eapply allocates_returns_new.
  - destruct (union_spec h a b A B EA EB) as (r & h' & E & Hal).
    by eapply allocates_returns_new.
  - destruct (subtract_spec h a b A B EA EB) as (r & h' & E & Hal).
    by eapply allocates_returns_new.
  - destruct (xor_spec h a b A B EA EB) as (r & h' & E & Hal).
    by eapply allocates_returns_new.
  - destruct (intersect_spec h a b A B EA EB) as (r & h' & E & Hal).
    by eapply allocates_returns_new.
  - intros v Hv.
    rewrite (update_Ok 2 h a A (IArray [v]) [v] EA) by (done || simpl; lia).
    rewrite added_cons, added_nil. unfold JSSet.add_data.
    by rewrite decide_False.
Qed.

(** ** The invariant of the store *)

Lemma update_wf fuel h this d it vs :
  heap_wf h → h !! this = Some d → elements_of h it = Some vs →
  length vs < fuel →
  ∃ h', SuperSet.update fuel this it h = Ok this h' ∧ heap_wf h'.
Proof.
  intros Hwf Ed Eit Hfuel. eexists. split; [by apply update_Ok|].
  apply heap_wf_insert; [done|]. apply NoDup_added. by eapply Hwf.
Qed.

Lemma algebra_wf h a b A B :
  heap_wf h → h !! a = Some A → h !! b = Some B →
  ∀ c, c ∈ [SuperSet.union a b; SuperSet.subtract a b;
            SuperSet.xor a b; SuperSet.intersect a b] →
  ∃ r h', c h = Ok r h' ∧ heap_wf h'.
Proof.
  intros Hwf EA EB c Hc.
  repeat (apply elem_of_cons in Hc as [-> | Hc]); [| | | |by apply elem_of_nil in Hc].
  - destruct (union_spec h a b A B EA EB) as (r & h' & E & Hal).
    exists r, h'. split; [done | by eapply allocates_wf].
  - destruct (subtract_spec h a b A B EA EB) as (r & h' & E & Hal).
    exists r, h'. split; [done | by eapply allocates_wf].
  - destruct (xor_spec h a b A B EA EB) as (r & h' & E & Hal).
    exists r, h'. split; [done | by eapply allocates_wf].
  - destruct (intersect_spec h a b A B EA EB) as (r & h' & E & Hal).
    exists r, h'. split; [done | by eapply allocates_wf].
Qed.

(** ** Instances on a concrete store *)

Ltac nodup := apply (bool_decide_unpack _); vm_compute; exact I.

Lemma demo_heap_0 : demo_heap !! 0 = Some [VNum 1; VNum 2].
Proof. reflexivity. Qed.

Lemma demo_heap_1 : demo_heap !! 1 = Some [VNum 2; VNum 3].
Proof. reflexivity. Qed.

Lemma reduce_omitted_or_explicit_witness :
  let step := λ acc itm, keep_accumulator VUndefined [acc; itm; itm; VSet 0] in
  SuperSet.reduce 0 (Closure keep_accumulator) None demo_heap
  = Ok (fold_left step [VNum 2] (VNum 1)) demo_heap
  ∧ SuperSet.reduce 0 (Closure keep_accumulator) (Some VUndefined) demo_heap
    = Ok (fold_left step [VNum 1; VNum 2] VUndefined) demo_heap
  ∧ ∀ v, SuperSet.reduce 0 (Closure keep_accumulator) (Some v) demo_heap
         = Ok (fold_left step [VNum 1; VNum 2] v) demo_heap.
Proof.
  apply (reduce_omitted_or_explicit demo_heap 0 keep_accumulator (VNum 1) [VNum 2]).
  reflexivity.
Defined.

(** Leaving the initial value out and passing [undefined] give different
    results. *)
Example reduce_omitted_differs :
  SuperSet.reduce 0 (Closure keep_accumulator) None demo_heap
  = Ok (VNum 1) demo_heap
  ∧ SuperSet.reduce 0 (Closure keep_accumulator) (Some VUndefined) demo_heap
    = Ok VUndefined demo_heap.
Proof. split; reflexivity. Qed.

Lemma every_some_truthy_witness :
  ∃ e s : bool,
    SuperSet.every 0 (Closure is_one) VUndefined demo_heap = Ok e demo_heap
    ∧ SuperSet.some 0 (Closure is_one) VUndefined demo_heap = Ok s demo_heap
    ∧ (e = true ↔ ∀ x, x ∈ [VNum 1; VNum 2] →
                    truthy (is_one VUndefined [x; x; VSet 0]) = true)
    ∧ (s = true ↔ ∃ x, x ∈ [VNum 1; VNum 2]
                    ∧ truthy (is_one VUndefined [x; x; VSet 0]) = true)
    ∧ ([VNum 1; VNum 2] = [] → e = true ∧ s = false).
Proof.
  apply (every_some_truthy demo_heap 0 [VNum 1; VNum 2] is_one VUndefined).
  reflexivity.
Defined.

Lemma equals_iff_mutual_subset_witness :
  ∃ (e s1 s2 : bool) (na nb : nat),
    SuperSet.equals 0 1 demo_heap = Ok e demo_heap
    ∧ SuperSet.isSubsetOf 0 1 demo_heap = Ok s1 demo_heap
    ∧ SuperSet.isSubsetOf 1 0 demo_heap = Ok s2 demo_heap
    ∧ JSSet.size 0 demo_heap = Ok na demo_heap
    ∧ JSSet.size 1 demo_heap = Ok nb demo_heap
    ∧ (s1 = true ↔ ∀ x, x ∈ [VNum 1; VNum 2] → x ∈ [VNum 2; VNum 3])
    ∧ (s2 = true ↔ ∀ x, x ∈ [VNum 2; VNum 3] → x ∈ [VNum 1; VNum 2])
    ∧ na = length [VNum 1; VNum 2]
    ∧ nb = length [VNum 2; VNum 3]
    ∧ (e = true ↔ ∀ x, x ∈ [VNum 1; VNum 2] ↔ x ∈ [VNum 2; VNum 3])
    ∧ (e = true ↔ s1 = true ∧ s2 = true)
    ∧ (e = true ↔ na = nb ∧ s1 = true).
Proof.
  apply (equals_iff_mutual_subset demo_heap 0 1 [VNum 1; VNum 2] [VNum 2; VNum 3]);
    [reflexivity | reflexivity | nodup | nodup].
Defined.

Lemma subtract_intersect_partition_witness :
  ∃ h', partition_law 0 1 demo_heap = Ok true h'.
Proof.
  apply (subtract_intersect_partition demo_heap 0 1 [VNum 1; VNum 2] [VNum 2; VNum 3]);
    [reflexivity | reflexivity | nodup].
Defined.

Lemma xor_is_composed_witness :
  ∃ (x : loc) (h1 : heap) (X : list value),
    SuperSet.xor 0 1 demo_heap = Ok x h1
    ∧ h1 !! x = Some X
    ∧ NoDup X
    ∧ (∀ v, v ∈ X ↔ in_exactly_one [VNum 1; VNum 2] [VNum 2; VNum 3] v)
    ∧ ∃ h', xor_law 0 1 demo_heap = Ok true h'.
Proof.
  apply (xor_is_composed demo_heap 0 1 [VNum 1; VNum 2] [VNum 2; VNum 3]);
    reflexivity.
Defined.

Lemma union_size_bound_witness :
  ∃ (n na nb : nat) (h' : heap),
    union_size 0 1 demo_heap = Ok n h'
    ∧ JSSet.size 0 demo_heap = Ok na demo_heap
    ∧ JSSet.size 1 demo_heap = Ok nb demo_heap
    ∧ n ≤ na + nb
    ∧ (n = na + nb ↔ ∀ x, x ∈ [VNum 1; VNum 2] → x ∉ [VNum 2; VNum 3]).
Proof.
  apply (union_size_bound demo_heap 0 1 [VNum 1; VNum 2] [VNum 2; VNum 3]);
    [reflexivity | reflexivity | nodup | nodup].
Defined.

Lemma update_in_place_witness :
  (∃ d', SuperSet.update 3 0 (IArray [VNum 2; VNum 3]) demo_heap
         = Ok 0 (<[0 := d']> demo_heap)
         ∧ d' = added [VNum 1; VNum 2] [VNum 2; VNum 3]
         ∧ NoDup d'
         ∧ ∀ x, x ∈ d' ↔ x ∈ [VNum 1; VNum 2] ∨ x ∈ [VNum 2; VNum 3])
  ∧ ∃ h', update_example 3 ∅ = Ok true h'.
Proof.
  apply (update_in_place 3 demo_heap 0 [VNum 1; VNum 2]
           (IArray [VNum 2; VNum 3]) [VNum 2; VNum 3]);
    [reflexivity | nodup | reflexivity | simpl; lia].
Defined.

(** [S.update(S)] ends and leaves [S] as it is. *)
Example update_with_itself :
  SuperSet.update 3 0 (ISet 0) demo_heap = Ok 0 demo_heap.
Proof. reflexivity. Qed.

Lemma derived_sets_are_new_witness :
  returns_new_set demo_heap 0 1 (SuperSet.map 0 (Closure is_one) VUndefined)
  ∧ returns_new_set demo_heap 0 1 (SuperSet.filter 0 (Closure is_one) VUndefined)
  ∧ returns_new_set demo_heap 0 1 (SuperSet.union 0 1)
  ∧ returns_new_set demo_heap 0 1 (SuperSet.subtract 0 1)
  ∧ returns_new_set demo_heap 0 1 (SuperSet.xor 0 1)
  ∧ returns_new_set demo_heap 0 1 (SuperSet.intersect 0 1)
  ∧ ∀ v, v ∉ [VNum 1; VNum 2] →
      SuperSet.update 2 0 (IArray [v]) demo_heap
      = Ok 0 (<[0 := [VNum 1; VNum 2] ++ [v]]> demo_heap).
Proof.
  apply (derived_sets_are_new demo_heap 0 1 [VNum 1; VNum 2] [VNum 2; VNum 3]
           is_one VUndefined);
    reflexivity.
Defined.

Lemma union_commutes_witness :
  ∃ h', union_comm_law 0 1 demo_heap = Ok true h'.
Proof.
  apply (union_commutes demo_heap 0 1 [VNum 1; VNum 2] [VNum 2; VNum 3]);
    reflexivity.
Defined.

(** ** The examples of the documentation, evaluated *)

Example construct_size_3 : ∃ h, construct_size ∅ = Ok 3 h.
Proof. eexists. vm_compute. reflexivity. Qed.

Example map_parity_size_2 : ∃ h, map_parity_size ∅ = Ok 2 h.
Proof. eexists. vm_compute. reflexivity. Qed.

(** [xor] lists what is left of the receiver, then what is left of the
    argument. *)
Example xor_order :
  ∃ r h, SuperSet.xor 0 1 demo_heap = Ok r h ∧ h !! r = Some [VNum 1; VNum 3].
Proof. eexists _, _. split; reflexivity. Qed.

(** [has] called on something that is no set throws, and so does a method
    that calls it. *)
Example every_incompatible_receiver :
  SuperSet.every 0 Set_prototype_has (VNum 5) demo_heap
  = Throw (TypeError "incompatible receiver").
Proof. reflexivity. Qed.

(** * Further properties *)

(** ** Tools *)

Lemma bind_Throw {A B} (c : M A) (k : A → M B) h e :
  c h = Throw e → (c ≫= k) h = Throw e.
Proof. intros E. unfold mbind, M_bind. by rewrite E. Qed.

Lemma new_Throw h src e :
  src (<[fresh (dom h) := []]> h) = Throw e → SuperSet.new src h = Throw e.
Proof.
  intros E. unfold SuperSet.new.
  rewrite (bind_Ok JSSet.alloc _ h (fresh (dom h)) (<[fresh (dom h) := []]> h)) by done.
  by rewrite (bind_Throw _ _ _ _ E).
Qed.

Lemma allocates_keeps h l d h' k dk :
  allocates h l d h' → h !! k = Some dk → h' !! k = Some dk.
Proof. intros Hal Hk. by destruct (allocates_lookup _ _ _ _ _ _ Hal Hk). Qed.

Create HintDb store.
#[local] Hint Resolve allocates_keeps allocates_lookup_new : store.

(** Runs the call whose specification is [spec] at the head of the goal. *)
Ltac exec spec :=
  let r := fresh "r" in
  let h' := fresh "h" in
  let E := fresh "E" in
  let Hal := fresh "Hal" in
  edestruct spec as (r & h' & E & Hal); [eauto with store..|];
  rewrite (bind_Ok _ _ _ _ _ E).

(** Reduces membership in what the methods build to membership in the
    operands. *)
Ltac elems :=
  repeat (rewrite elem_of_added || rewrite elem_of_app
          || rewrite elem_of_subtracted || rewrite elem_of_intersected
          || rewrite elem_of_nil).

Lemma NoDup_built vs : NoDup (added [] vs).
Proof. apply NoDup_added, NoDup_nil_2. Qed.

Lemma added_prefix d vs : d `prefix_of` added d vs.
Proof.
  revert d. induction vs as [|v vs IH]; intros d; [done|].
  rewrite added_cons. etrans; [|apply IH].
  unfold JSSet.add_data. case_decide; [done | by apply prefix_app_r].
Qed.

Lemma hd_added x0 d vs : hd x0 (added d vs) = hd x0 (d ++ vs).
Proof.
  destruct d as [|x d].
  - destruct vs as [|v vs]; [done|].
    rewrite added_cons. destruct (added_prefix (JSSet.add_data [] v) vs) as [k ->].
    done.
  - by destruct (added_prefix (x :: d) vs) as [k ->].
Qed.

Lemma added_sublist d vs : added d vs `sublist_of` d ++ vs.
Proof.
  revert d. induction vs as [|v vs IH]; intros d.
  - by rewrite added_nil, app_nil_r.
  - rewrite added_cons. unfold JSSet.add_data. case_decide.
    + etrans; [apply IH|]. apply sublist_app; [done|]. by apply sublist_cons.
    + etrans; [apply IH|]. by rewrite <- app_assoc.
Qed.

Lemma filter_ext_in (P Q : value → Prop)
    `{!∀ x, Decision (P x), !∀ x, Decision (Q x)} (l : list value) :
  (∀ x, x ∈ l → P x ↔ Q x) → filter P l = filter Q l.
Proof.
  induction l as [|a l IH]; intros Hiff; [done|].
  assert (filter P l = filter Q l) as Hl.
  { apply IH. intros x Hx. apply Hiff. by right. }
  destruct (decide (P a)) as [Ha|Ha].
  - rewrite !filter_cons_True, Hl; [done | | done]. apply Hiff; [by left | done].
  - rewrite !filter_cons_False, Hl; [done | | done].
    intros HQ. apply Ha, Hiff; [by left | done].
Qed.

(** Adding a duplicate-free [vs] to [d] appends the values of [vs] that [d]
    lacks, in their order. *)
Lemma added_filter d vs :
  NoDup vs → added d vs = d ++ filter (λ itm, itm ∉ d) vs.
Proof.
  intros Hvs. revert d. induction Hvs as [|v vs Hv Hvs IH]; intros d.
  - by rewrite added_nil, filter_nil, app_nil_r.
  - rewrite added_cons. unfold JSSet.add_data.
    destruct (decide (v ∈ d)) as [Hd|Hd].
    + rewrite filter_cons_False by tauto. apply IH.
    + rewrite filter_cons_True by done. rewrite IH, <- app_assoc. simpl.
      do 2 f_equal. apply filter_ext_in. intros x Hx.
      rewrite elem_of_app, list_elem_of_singleton.
      split; [tauto|]. intros ? [?| ->]; done.
Qed.

Lemma first_Ok h this A :
  h !! this = Some A → SuperSet.first this h = Ok (hd VUndefined A) h.
Proof.
  intros E. unfold SuperSet.first, JSSet.values.
  by rewrite (bind_Ok _ _ _ _ _ (data_Ok _ _ _ E)).
Qed.

Lemma find_loop_Ok h this check g items :
  computes h check VUndefined g →
  SuperSet.find_loop this check items h
  = Ok (hd VUndefined (filter (λ itm, truthy (answer g this itm)) items)) h.
Proof.
  intros Hcheck. induction items as [|itm rest IH]; [done|]. simpl.
  rewrite (bind_Ok _ _ _ _ _ (Hcheck _)). fold (answer g this itm).
  rewrite filter_cons. by destruct (truthy (answer g this itm)).
Qed.

Lemma find_Ok h this A func thisArg g :
  h !! this = Some A → computes h func thisArg g →
  SuperSet.find this func thisArg h
  = Ok (hd VUndefined (filter (λ itm, truthy (answer g this itm)) A)) h.
Proof.
  intros E Hf. unfold SuperSet.find, JSSet.values.
  rewrite (bind_Ok _ _ _ _ _ (data_Ok _ _ _ E)).
  apply find_loop_Ok. by apply computes_bind.
Qed.

(** The first element of a list that passes a test splits the list. *)
Lemma filter_first_split (P : value → Prop) `{!∀ x, Decision (P x)} l :
  (filter P l = [] ∧ ∀ x, x ∈ l → ¬ P x)
  ∨ ∃ pre v post, l = pre ++ v :: post ∧ P v ∧ (∀ x, x ∈ pre → ¬ P x)
                  ∧ filter P l = v :: filter P post.
Proof.
  induction l as [|a l IH]; [left; split; [done | by intros x ?%elem_of_nil]|].
  destruct (decide (P a)) as [Ha|Ha].
  - right. exists [], a, l. split_and!; [done | done | | by apply filter_cons_True].
    by intros x ?%elem_of_nil.
  - rewrite filter_cons_False by done.
    destruct IH as [[Hnil Hnone] | (pre & v & post & -> & Hv & Hpre & Hf)].
    + left. split; [done|]. intros x [->|?]%elem_of_cons; auto.
    + right. exists (a :: pre), v, post. split_and!; [done | done | | done].
      intros x [->|?]%elem_of_cons; auto.
Qed.

(** ** find and first *)

(** X1. [find(p)], for a pure [p], leaves the store as it is and returns
    the first element in iteration order on which [p] answers a truthy
    value: no element before it passes. When no element passes, it returns
    [undefined]. *)
Theorem find_first_match (h : heap) (this : loc) (A : list value)
    (p : value → list value → value) (thisArg : value) :
  h !! this = Some A →
  ∃ v, SuperSet.find this (Closure p) thisArg h = Ok v h
       ∧ ((∃ pre post, A = pre ++ v :: post
             ∧ truthy (p thisArg [v; v; VSet this]) = true
             ∧ ∀ x, x ∈ pre → truthy (p thisArg [x; x; VSet this]) = false)
          ∨ (v = VUndefined
             ∧ ∀ x, x ∈ A → truthy (p thisArg [x; x; VSet this]) = false)).
Proof.
  intros E. eexists. split.
  - apply (find_Ok h this A _ thisArg (p thisArg) E), computes_Closure.
  - destruct (filter_first_split
                (λ itm, truthy (answer (p thisArg) this itm)) A)
      as [[-> Hnone] | (pre & v & post & -> & Hv & Hpre & ->)].
    + right. split; [done|]. intros x Hx. by apply Is_true_false_1, Hnone.
    + left. exists pre, post. split_and!; [done | by apply Is_true_true_1 |].
      intros x Hx. by apply Is_true_false_1, Hpre.
Qed.

Lemma find_first_match_witness :
  ∃ v, SuperSet.find 0 (Closure is_one) VUndefined demo_heap = Ok v demo_heap
       ∧ ((∃ pre post, [VNum 1; VNum 2] = pre ++ v :: post
             ∧ truthy (is_one VUndefined [v; v; VSet 0]) = true
             ∧ ∀ x, x ∈ pre → truthy (is_one VUndefined [x; x; VSet 0]) = false)
          ∨ (v = VUndefined
             ∧ ∀ x, x ∈ [VNum 1; VNum 2] →
                    truthy (is_one VUndefined [x; x; VSet 0]) = false)).
Proof.
  apply (find_first_match demo_heap 0 [VNum 1; VNum 2] is_one VUndefined).
  reflexivity.
Defined.

(** X2. [S.find(p)] returns what [S.filter(p).first] returns, [undefined]
    included when nothing passes; [find] builds no set on the way. *)
Theorem find_is_filter_first (h : heap) (this : loc) (A : list value)
    (p : value → list value → value) (thisArg : value) :
  h !! this = Some A →
  ∃ v h', filter_first this (Closure p) thisArg h = Ok v h'
          ∧ SuperSet.find this (Closure p) thisArg h = Ok v h.
Proof.
  intros E. unfold filter_first.
  destruct (filter_spec h this A (Closure p) thisArg _ E (computes_Closure _ _ _))
    as (r & h' & Er & Hal).
  rewrite (bind_Ok _ _ _ _ _ Er).
  rewrite (first_Ok _ _ _ (allocates_lookup_new _ _ _ _ Hal)).
  eexists _, _. split; [done|].
  rewrite (find_Ok h this A _ thisArg (p thisArg) E) by apply computes_Closure.
  by rewrite hd_added.
Qed.

Lemma find_is_filter_first_witness :
  ∃ v h', filter_first 0 (Closure is_one) VUndefined demo_heap = Ok v h'
          ∧ SuperSet.find 0 (Closure is_one) VUndefined demo_heap = Ok v demo_heap.
Proof.
  apply (find_is_filter_first demo_heap 0 [VNum 1; VNum 2] is_one VUndefined).
  reflexivity.
Defined.

(** X3. [S.update(I).first] is the first element [S] had before, when it had
    one, and otherwise the first element of [I]: [update] never puts a value
    in front of the elements that are there. *)
Theorem first_after_update (fuel : nat) (h : heap) (this : loc)
    (d : list value) (it : iterable) (vs : list value) :
  h !! this = Some d → elements_of h it = Some vs → length vs < fuel →
  ∃ v h', update_first fuel this it h = Ok v h'
          ∧ v = hd VUndefined (d ++ vs)
          ∧ (d ≠ [] → SuperSet.first this h = Ok v h).
Proof.
  intros Ed Eit Hfuel. unfold update_first.
  rewrite (bind_Ok _ _ _ _ _ (update_Ok fuel h this d it vs Ed Eit Hfuel)).
  rewrite (first_Ok _ _ _ (lookup_insert_eq _ _ _)), hd_added.
  eexists _, _. split_and!; [done | done |].
  intros Hd. rewrite (first_Ok _ _ _ Ed). by destruct d.
Qed.

Lemma first_after_update_witness :
  ∃ v h', update_first 3 0 (IArray [VNum 2; VNum 3]) demo_heap = Ok v h'
          ∧ v = hd VUndefined ([VNum 1; VNum 2] ++ [VNum 2; VNum 3])
          ∧ ([VNum 1; VNum 2] ≠ [] → SuperSet.first 0 demo_heap = Ok v demo_heap).
Proof.
  apply (first_after_update 3 demo_heap 0 [VNum 1; VNum 2]
           (IArray [VNum 2; VNum 3]) [VNum 2; VNum 3]);
    [reflexivity | reflexivity | simpl; lia].
Defined.

(** ** reduce, every, some *)

(** X6. On a set with one element, [reduce(func)] without an initial value
    returns that element and never calls [func]: the result is the same for
    every [func], the native [has] included, which would throw if it were
    called without a receiver. *)
Theorem reduce_singleton (h : heap) (this : loc) (x : value) (func : jsfun) :
  h !! this = Some [x] →
  SuperSet.reduce this func None h = Ok x h.
Proof.
  intros E. unfold SuperSet.reduce, JSSet.values.
  rewrite (bind_Ok _ _ _ _ _ (size_Ok _ _ _ E)). simpl.
  by rewrite (bind_Ok _ _ _ _ _ (data_Ok _ _ _ E)).
Qed.

Lemma reduce_singleton_witness :
  SuperSet.reduce 1 Set_prototype_has None text_heap = Ok (VStr "c") text_heap.
Proof. apply (reduce_singleton text_heap 1 (VStr "c") Set_prototype_has). reflexivity. Defined.

Lemma existsb_negb_forallb {X} (f : X → bool) l :
  existsb (λ x, negb (f x)) l = negb (forallb f l).
Proof. induction l as [|x l IH]; [done|]. simpl. rewrite IH. by destruct (f x). Qed.

Lemma forallb_negb_existsb {X} (f : X → bool) l :
  forallb (λ x, negb (f x)) l = negb (existsb f l).
Proof. induction l as [|x l IH]; [done|]. simpl. rewrite IH. by destruct (f x). Qed.

(** X7. For a pure [p], [some] of the negated predicate is the negation of
    [every(p)], and [every] of the negated predicate is the negation of
    [some(p)]. *)
Theorem every_some_de_morgan (h : heap) (this : loc) (A : list value)
    (p : value → list value → value) (thisArg : value) :
  h !! this = Some A →
  ∃ e s : bool,
    SuperSet.every this (Closure p) thisArg h = Ok e h
    ∧ SuperSet.some this (Closure (negate p)) thisArg h = Ok (negb e) h
    ∧ SuperSet.some this (Closure p) thisArg h = Ok s h
    ∧ SuperSet.every this (Closure (negate p)) thisArg h = Ok (negb s) h.
Proof.
  intros E. eexists _, _. split_and!.
  - apply (every_Ok h this A _ thisArg (p thisArg) E), computes_Closure.
  - rewrite (some_Ok h this A _ thisArg (negate p thisArg) E)
      by apply computes_Closure.
    f_equal. apply (existsb_negb_forallb (λ itm, truthy (answer (p thisArg) this itm))).
  - apply (some_Ok h this A _ thisArg (p thisArg) E), computes_Closure.
  - rewrite (every_Ok h this A _ thisArg (negate p thisArg) E)
      by apply computes_Closure.
    f_equal. apply (forallb_negb_existsb (λ itm, truthy (answer (p thisArg) this itm))).
Qed.

Lemma every_some_de_morgan_witness :
  ∃ e s : bool,
    SuperSet.every 0 (Closure is_one) VUndefined demo_heap = Ok e demo_heap
    ∧ SuperSet.some 0 (Closure (negate is_one)) VUndefined demo_heap
      = Ok (negb e) demo_heap
    ∧ SuperSet.some 0 (Closure is_one) VUndefined demo_heap = Ok s demo_heap
    ∧ SuperSet.every 0 (Closure (negate is_one)) VUndefined demo_heap
      = Ok (negb s) demo_heap.
Proof.
  apply (every_some_de_morgan demo_heap 0 [VNum 1; VNum 2] is_one VUndefined).
  reflexivity.
Defined.

Lemma call_has_non_set h thisArg this args :
  (∀ l, thisArg ≠ VSet l) →
  call (bind Set_prototype_has thisArg) this args h
  = Throw (TypeError "incompatible receiver").
Proof. intros Hne. destruct thisArg; try done. by destruct (Hne l). Qed.

(** X8. The native [has] bound to something that is no set throws when it is
    called. So [every], [some], [find], [filter] and [map] with it throw on
    a set that has an element, and on an empty set, where nothing is called,
    [every] is true, [some] is false and [find] is [undefined]. *)
Theorem has_on_non_set (h : heap) (this : loc) (A : list value)
    (thisArg : value) :
  h !! this = Some A → (∀ l, thisArg ≠ VSet l) →
  (A = [] →
     SuperSet.every this Set_prototype_has thisArg h = Ok true h
     ∧ SuperSet.some this Set_prototype_has thisArg h = Ok false h
     ∧ SuperSet.find this Set_prototype_has thisArg h = Ok VUndefined h)
  ∧ (A ≠ [] →
     ∃ e, SuperSet.every this Set_prototype_has thisArg h = Throw e
          ∧ SuperSet.some this Set_prototype_has thisArg h = Throw e
          ∧ SuperSet.find this Set_prototype_has thisArg h = Throw e
          ∧ SuperSet.filter this Set_prototype_has thisArg h = Throw e
          ∧ SuperSet.map this Set_prototype_has thisArg h = Throw e).
Proof.
  intros E Hne. split.
  - intros ->. unfold SuperSet.every, SuperSet.some, SuperSet.find, JSSet.values.
    by rewrite !(bind_Ok _ _ _ _ _ (data_Ok _ _ _ E)).
  - intros HA. destruct A as [|x A]; [done|].
    exists (TypeError "incompatible receiver").
    unfold SuperSet.every, SuperSet.some, SuperSet.find, JSSet.values.
    rewrite !(bind_Ok _ _ _ _ _ (data_Ok _ _ _ E)).
    cbn [SuperSet.every_loop SuperSet.some_loop SuperSet.find_loop].
    split_and!.
    + by rewrite (bind_Throw _ _ _ _ (call_has_non_set h thisArg _ _ Hne)).
    + by rewrite (bind_Throw _ _ _ _ (call_has_non_set h thisArg _ _ Hne)).
    + by rewrite (bind_Throw _ _ _ _ (call_has_non_set h thisArg _ _ Hne)).
    + apply new_Throw. unfold filterGen, JSSet.values.
      rewrite (bind_Ok _ _ _ _ _ (data_Ok _ _ _ (lookup_alloc _ _ _ _ E))).
      cbn [filterGen_loop].
      by rewrite (bind_Throw _ _ _ _ (call_has_non_set _ thisArg _ _ Hne)).
    + apply new_Throw. unfold mapGen, JSSet.values.
      rewrite (bind_Ok _ _ _ _ _ (data_Ok _ _ _ (lookup_alloc _ _ _ _ E))).
      cbn [mapGen_loop].
      by rewrite (bind_Throw _ _ _ _ (call_has_non_set _ thisArg _ _ Hne)).
Qed.

Lemma has_on_non_set_witness :
  ([VNum 1; VNum 2] = [] →
     SuperSet.every 0 Set_prototype_has (VNum 5) demo_heap = Ok true demo_heap
     ∧ SuperSet.some 0 Set_prototype_has (VNum 5) demo_heap = Ok false demo_heap
     ∧ SuperSet.find 0 Set_prototype_has (VNum 5) demo_heap
       = Ok VUndefined demo_heap)
  ∧ ([VNum 1; VNum 2] ≠ [] →
     ∃ e, SuperSet.every 0 Set_prototype_has (VNum 5) demo_heap = Throw e
          ∧ SuperSet.some 0 Set_prototype_has (VNum 5) demo_heap = Throw e
          ∧ SuperSet.find 0 Set_prototype_has (VNum 5) demo_heap = Throw e
          ∧ SuperSet.filter 0 Set_prototype_has (VNum 5) demo_heap = Throw e
          ∧ SuperSet.map 0 Set_prototype_has (VNum 5) demo_heap = Throw e).
Proof.
  apply (has_on_non_set demo_heap 0 [VNum 1; VNum 2] (VNum 5));
    [reflexivity | discriminate].
Defined.

(** ** join *)

Lemma string_app_assoc (a b c : string) : (a +:+ b) +:+ c = a +:+ (b +:+ c).
Proof.
  induction a as [|x a IH]; [done|].
  change (String x ((a +:+ b) +:+ c) = String x (a +:+ (b +:+ c))).
  by rewrite IH.
Qed.

Lemma string_app_nil_r (a : string) : a +:+ EmptyString = a.
Proof.
  induction a as [|x a IH]; [done|].
  change (String x (a +:+ EmptyString) = String x a). by rewrite IH.
Qed.

Section join.
Context (ToString : value → string) (sep : string).

(** The text so far is a prefix of the result. *)
Lemma join_loop_acc R k items :
  JSArray.join_loop ToString sep R k items
  = R +:+ JSArray.join_loop ToString sep EmptyString k items.
Proof.
  revert R k. induction items as [|element rest IH]; intros R k.
  - simpl. by rewrite string_app_nil_r.
  - simpl. destruct (0 <? k).
    + rewrite (IH ((R +:+ sep) +:+ _)), (IH ((EmptyString +:+ sep) +:+ _)).
      by rewrite !string_app_assoc.
    + rewrite (IH (R +:+ _)), (IH (EmptyString +:+ _)).
      by rewrite !string_app_assoc.
Qed.

(** Past the first element, the index plays no part. *)
Lemma join_loop_index R k items :
  JSArray.join_loop ToString sep R (S k) items
  = JSArray.join_loop ToString sep R 1 items.
Proof.
  revert R k. induction items as [|element rest IH]; intros R k; [done|].
  simpl. by rewrite (IH _ (S k)), (IH _ 1).
Qed.

Lemma join_loop_app R k xs ys :
  JSArray.join_loop ToString sep R k (xs ++ ys)
  = JSArray.join_loop ToString sep
      (JSArray.join_loop ToString sep R k xs) (k + length xs) ys.
Proof.
  revert R k. induction xs as [|x xs IH]; intros R k.
  - simpl. by rewrite Nat.add_0_r.
  - simpl. rewrite IH. by rewrite Nat.add_succ_r.
Qed.

Lemma join_loop_later items :
  items ≠ [] →
  JSArray.join_loop ToString sep EmptyString 1 items
  = sep +:+ JSArray.join_loop ToString sep EmptyString 0 items.
Proof.
  destruct items as [|element rest]; [done|]. intros _. simpl.
  rewrite (join_loop_index _ 1).
  rewrite (join_loop_acc ((EmptyString +:+ sep) +:+ _)).
  rewrite (join_loop_acc (EmptyString +:+ _)).
  by rewrite !string_app_assoc.
Qed.

Lemma join_loop_append xs ys :
  xs ≠ [] → ys ≠ [] →
  JSArray.join_loop ToString sep EmptyString 0 (xs ++ ys)
  = JSArray.join_loop ToString sep EmptyString 0 xs
    +:+ sep +:+ JSArray.join_loop ToString sep EmptyString 0 ys.
Proof.
  intros Hxs Hys. rewrite join_loop_app. simpl.
  destruct xs as [|x xs]; [done|]. cbn [length].
  rewrite join_loop_index, join_loop_acc. by rewrite join_loop_later.
Qed.
End join.

Lemma join_Ok ToString h this A separator :
  h !! this = Some A →
  SuperSet.join ToString this separator h
  = Ok (JSArray.join ToString A separator) h.
Proof.
  intros E. unfold SuperSet.join, JSSet.values.
  by rewrite (bind_Ok _ _ _ _ _ (data_Ok _ _ _ E)).
Qed.

(** X4. [join] on an empty set gives the empty string, and on a set with one
    element the text of that element, nothing for [undefined] and [null]:
    with fewer than two elements the separator does not appear, whatever it
    is. *)
Theorem join_short_set (ToString : value → string) (h : heap) (this : loc)
    (A : list value) (separator : value) :
  h !! this = Some A → length A ≤ 1 →
  SuperSet.join ToString this separator h
  = Ok (from_option (JSArray.element_text ToString) EmptyString (head A)) h.
Proof.
  intros E Hlen. rewrite (join_Ok _ _ _ _ _ E).
  destruct A as [|x [|y A]]; [done | done | simpl in Hlen; lia].
Qed.

Lemma join_short_set_witness :
  SuperSet.join demo_text 1 (VStr ", ") text_heap
  = Ok (from_option (JSArray.element_text demo_text) EmptyString
          (head [VStr "c"])) text_heap.
Proof.
  apply (join_short_set demo_text text_heap 1 [VStr "c"] (VStr ", "));
    [reflexivity | simpl; lia].
Defined.

(** X5. When [A] and [B] each have an element and share none,
    [A.union(B).join(s)] is [A.join(s)], the separator, and [B.join(s)], in
    that order. *)
Theorem join_union (ToString : value → string) (h : heap) (a b : loc)
    (A B : list value) (separator : value) :
  h !! a = Some A → h !! b = Some B → NoDup A → NoDup B →
  (∀ x, x ∈ A → x ∉ B) → A ≠ [] → B ≠ [] →
  ∃ (sa sb : string) (h' : heap),
    SuperSet.join ToString a separator h = Ok sa h
    ∧ SuperSet.join ToString b separator h = Ok sb h
    ∧ union_join ToString a b separator h
      = Ok (sa +:+ JSArray.separator_text ToString separator +:+ sb) h'.
Proof.
  intros EA EB HA HB Hdisj HAne HBne.
  destruct (union_spec h a b A B EA EB) as (u & h' & Eu & Hal).
  eexists _, _, h'. split_and!; [by apply join_Ok | by apply join_Ok |].
  unfold union_join. rewrite (bind_Ok _ _ _ _ _ Eu).
  rewrite (join_Ok _ _ _ _ _ (allocates_lookup_new _ _ _ _ Hal)).
  rewrite added_NoDup by (apply NoDup_app; done).
  unfold JSArray.join. by rewrite join_loop_append.
Qed.

Lemma join_union_witness :
  ∃ (sa sb : string) (h' : heap),
    SuperSet.join demo_text 0 (VStr ", ") text_heap = Ok sa text_heap
    ∧ SuperSet.join demo_text 1 (VStr ", ") text_heap = Ok sb text_heap
    ∧ union_join demo_text 0 1 (VStr ", ") text_heap
      = Ok (sa +:+ JSArray.separator_text demo_text (VStr ", ") +:+ sb) h'.
Proof.
  apply (join_union demo_text text_heap 0 1 [VStr "a"; VStr "b"] [VStr "c"]);
    [reflexivity | reflexivity | nodup | nodup | | discriminate | discriminate].
  intros x Hx Hc. apply list_elem_of_singleton in Hc as ->.
  by repeat (apply elem_of_cons in Hx as [Hx|Hx]; [discriminate Hx|]);
     apply elem_of_nil in Hx.
Defined.

(** [join] puts the separator between the elements and nowhere else. *)
Example join_text :
  SuperSet.join demo_text 0 (VStr ", ") text_heap = Ok "a, b" text_heap.
Proof. reflexivity. Qed.

(** ** isSubsetOf and equals as relations *)

(** X9. Every set is a subset of itself and equal to itself. *)
Theorem subset_equals_reflexive (h : heap) (a : loc) (A : list value) :
  h !! a = Some A →
  SuperSet.isSubsetOf a a h = Ok true h ∧ SuperSet.equals a a h = Ok true h.
Proof.
  intros E.
  assert (forallb (λ itm, bool_decide (itm ∈ A)) A = true) as Hsub
    by (by apply forallb_elem_of).
  split.
  - by rewrite (isSubsetOf_Ok _ _ _ _ _ E E), Hsub.
  - by rewrite (equals_Ok _ _ _ _ _ E E), Hsub, Nat.eqb_refl.
Qed.

Lemma subset_equals_reflexive_witness :
  SuperSet.isSubsetOf 0 0 demo_heap = Ok true demo_heap
  ∧ SuperSet.equals 0 0 demo_heap = Ok true demo_heap.
Proof.
  apply (subset_equals_reflexive demo_heap 0 [VNum 1; VNum 2]). reflexivity.
Defined.

(** X10. [isSubsetOf] is transitive: when [A.isSubsetOf(B)] and
    [B.isSubsetOf(C)] are true, so is [A.isSubsetOf(C)]. *)
Theorem isSubsetOf_transitive (h : heap) (a b c : loc) (A B C : list value) :
  h !! a = Some A → h !! b = Some B → h !! c = Some C →
  SuperSet.isSubsetOf a b h = Ok true h →
  SuperSet.isSubsetOf b c h = Ok true h →
  SuperSet.isSubsetOf a c h = Ok true h.
Proof.
  intros EA EB EC.
  rewrite (isSubsetOf_Ok _ _ _ _ _ EA EB), (isSubsetOf_Ok _ _ _ _ _ EB EC),
    (isSubsetOf_Ok _ _ _ _ _ EA EC).
  intros [= Hab] [= Hbc]. f_equal.
  rewrite forallb_elem_of in *. auto.
Qed.

Lemma isSubsetOf_transitive_witness :
  SuperSet.isSubsetOf 0 1 chain_heap = Ok true chain_heap
  ∧ SuperSet.isSubsetOf 1 2 chain_heap = Ok true chain_heap
  ∧ SuperSet.isSubsetOf 0 2 chain_heap = Ok true chain_heap.
Proof.
  split_and!; [reflexivity | reflexivity |].
  apply (isSubsetOf_transitive chain_heap 0 1 2
           [VNum 2] [VNum 2; VNum 3] [VNum 1; VNum 2; VNum 3]);
    reflexivity.
Defined.

Lemma equals_bool_iff (A B : list value) :
  NoDup A → NoDup B →
  (length A =? length B) && forallb (λ itm, bool_decide (itm ∈ B)) A = true
  ↔ same_elements A B.
Proof.
  intros HA HB. rewrite andb_true_iff, Nat.eqb_eq, forallb_elem_of. split.
  - intros [Hlen Hsub]. by apply same_size_subset.
  - intros HE. split; [by apply same_elements_length|]. intros x. apply HE.
Qed.

(** X11. [equals] is symmetric: [A.equals(B)] and [B.equals(A)] return the
    same answer, although each looks for the elements of its receiver in its
    argument only. *)
Theorem equals_symmetric (h : heap) (a b : loc) (A B : list value) :
  h !! a = Some A → h !! b = Some B → NoDup A → NoDup B →
  ∃ e : bool, SuperSet.equals a b h = Ok e h ∧ SuperSet.equals b a h = Ok e h.
Proof.
  intros EA EB HA HB. eexists. split; [by apply equals_Ok|].
  rewrite (equals_Ok _ _ _ _ _ EB EA). f_equal.
  apply eq_true_iff_eq. rewrite !equals_bool_iff by done.
  unfold same_elements. naive_solver.
Qed.

Lemma equals_symmetric_witness :
  ∃ e : bool, SuperSet.equals 0 1 demo_heap = Ok e demo_heap
              ∧ SuperSet.equals 1 0 demo_heap = Ok e demo_heap.
Proof.
  apply (equals_symmetric demo_heap 0 1 [VNum 1; VNum 2] [VNum 2; VNum 3]);
    [reflexivity | reflexivity | nodup | nodup].
Defined.

(** ** map and filter *)

Lemma NoDup_fmap_inj_on {X Y} (f : X → Y) (l : list X) :
  NoDup (f <$> l) → ∀ x y, x ∈ l → y ∈ l → f x = f y → x = y.
Proof.
  induction l as [|a l IH]; intros Hnd x y Hx Hy Hxy.
  - by apply elem_of_nil in Hx.
  - rewrite fmap_cons in Hnd. apply NoDup_cons in Hnd as [Ha Hnd].
    apply elem_of_cons in Hx as [->|Hx]; apply elem_of_cons in Hy as [->|Hy].
    + done.
    + destruct Ha. rewrite Hxy. by apply list_elem_of_fmap_2.
    + destruct Ha. rewrite <- Hxy. by apply list_elem_of_fmap_2.
    + by apply IH.
Qed.

(** X12. [map(f)], for a pure [f], builds a set that holds exactly the
    values [f] returns for the elements of the receiver, each once: it has
    at most as many elements as the receiver. *)
Theorem map_image (h : heap) (this : loc) (A : list value)
    (f : value → list value → value) (thisArg : value) :
  h !! this = Some A →
  ∃ (r : loc) (h' : heap) (R : list value),
    SuperSet.map this (Closure f) thisArg h = Ok r h'
    ∧ h' !! r = Some R
    ∧ NoDup R
    ∧ (∀ y, y ∈ R ↔ ∃ x, x ∈ A ∧ y = f thisArg [x; x; VSet this])
    ∧ length R ≤ length A.
Proof.
  intros E.
  destruct (map_spec h this A (Closure f) thisArg _ E (computes_Closure _ _ _))
    as (r & h' & Er & Hal).
  eexists r, h', _. split_and!.
  - done.
  - by eapply allocates_lookup_new.
  - apply NoDup_built.
  - intros y. rewrite elem_of_added, elem_of_nil, list_elem_of_fmap.
    unfold answer. split.
    + intros [[]|(x & -> & Hx)]. eauto.
    + intros (x & Hx & ->). right. eauto.
  - etrans; [apply length_added_le|]. by rewrite length_fmap.
Qed.

Lemma map_image_witness :
  ∃ (r : loc) (h' : heap) (R : list value),
    SuperSet.map 0 (Closure is_one) VUndefined demo_heap = Ok r h'
    ∧ h' !! r = Some R
    ∧ NoDup R
    ∧ (∀ y, y ∈ R ↔ ∃ x, x ∈ [VNum 1; VNum 2]
                         ∧ y = is_one VUndefined [x; x; VSet 0])
    ∧ length R ≤ length [VNum 1; VNum 2].
Proof.
  apply (map_image demo_heap 0 [VNum 1; VNum 2] is_one VUndefined). reflexivity.
Defined.

(** X13. [map(f)] keeps the size of the receiver exactly when [f] returns
    different values for different elements of it; the new set then lists
    the values of [f] in the iteration order of the receiver. *)
Theorem map_injective_size (h : heap) (this : loc) (A : list value)
    (f : value → list value → value) (thisArg : value) :
  h !! this = Some A → NoDup A →
  ∃ (r : loc) (h' : heap) (R : list value),
    SuperSet.map this (Closure f) thisArg h = Ok r h'
    ∧ h' !! r = Some R
    ∧ (length R = length A
       ↔ ∀ x y, x ∈ A → y ∈ A →
           f thisArg [x; x; VSet this] = f thisArg [y; y; VSet this] → x = y)
    ∧ (length R = length A
       → R = (λ x, f thisArg [x; x; VSet this]) <$> A).
Proof.
  intros E HA.
  destruct (map_spec h this A (Closure f) thisArg _ E (computes_Closure _ _ _))
    as (r & h' & Er & Hal).
  eexists r, h', _. split_and!; [done | by eapply allocates_lookup_new | |].
  - pose proof (length_added_eq [] (answer (f thisArg) this <$> A) (NoDup_nil_2))
      as Heq.
    rewrite length_fmap in Heq. simpl in Heq. rewrite Heq. split.
    + apply NoDup_fmap_inj_on.
    + intros Hinj. by apply NoDup_fmap_2_strong.
  - intros Hlen.
    pose proof (length_added_eq [] (answer (f thisArg) this <$> A) (NoDup_nil_2))
      as Heq.
    rewrite length_fmap in Heq. simpl in Heq. apply Heq in Hlen.
    by rewrite added_NoDup.
Qed.

Lemma map_injective_size_witness :
  ∃ (r : loc) (h' : heap) (R : list value),
    SuperSet.map 0 (Closure is_one) VUndefined demo_heap = Ok r h'
    ∧ h' !! r = Some R
    ∧ (length R = length [VNum 1; VNum 2]
       ↔ ∀ x y, x ∈ [VNum 1; VNum 2] → y ∈ [VNum 1; VNum 2] →
           is_one VUndefined [x; x; VSet 0] = is_one VUndefined [y; y; VSet 0]
           → x = y)
    ∧ (length R = length [VNum 1; VNum 2]
       → R = (λ x, is_one VUndefined [x; x; VSet 0]) <$> [VNum 1; VNum 2]).
Proof.
  apply (map_injective_size demo_heap 0 [VNum 1; VNum 2] is_one VUndefined);
    [reflexivity | nodup].
Defined.

(** X14. [filter(p)], for a pure [p] on a receiver without duplicates,
    builds the set of the elements that pass, in the iteration order of the
    receiver, and [S.filter(p).isSubsetOf(S)] is true. *)
Theorem filter_exact (h : heap) (this : loc) (A : list value)
    (p : value → list value → value) (thisArg : value) :
  h !! this = Some A → NoDup A →
  ∃ (r : loc) (h' : heap),
    SuperSet.filter this (Closure p) thisArg h = Ok r h'
    ∧ h' !! r = Some (filter (λ itm, truthy (p thisArg [itm; itm; VSet this])) A)
    ∧ filter_subset this (Closure p) thisArg h = Ok true h'.
Proof.
  intros E HA.
  destruct (filter_spec h this A (Closure p) thisArg _ E (computes_Closure _ _ _))
    as (r & h' & Er & Hal).
  rewrite added_NoDup in Hal by by apply NoDup_filter.
  pose proof (allocates_lookup_new _ _ _ _ Hal) as ER.
  exists r, h'. split_and!; [done | done |].
  unfold filter_subset. rewrite (bind_Ok _ _ _ _ _ Er).
  rewrite (isSubsetOf_Ok _ _ _ _ _ ER (allocates_keeps _ _ _ _ _ _ Hal E)).
  f_equal. apply forallb_elem_of. intros x Hx.
  by apply list_elem_of_filter in Hx as [_ Hx].
Qed.

Lemma filter_exact_witness :
  ∃ (r : loc) (h' : heap),
    SuperSet.filter 0 (Closure is_one) VUndefined demo_heap = Ok r h'
    ∧ h' !! r = Some (filter (λ itm, truthy (is_one VUndefined [itm; itm; VSet 0]))
                        [VNum 1; VNum 2])
    ∧ filter_subset 0 (Closure is_one) VUndefined demo_heap = Ok true h'.
Proof.
  apply (filter_exact demo_heap 0 [VNum 1; VNum 2] is_one VUndefined);
    [reflexivity | nodup].
Defined.

(** ** More set algebra *)

(** X15. [S.filter(p).union(S.subtract(S.filter(p))).equals(S)] is true for
    a pure [p]: what passes and what is left after taking it away make up
    [S]. *)
Theorem filter_complement (h : heap) (this : loc) (A : list value)
    (p : value → list value → value) (thisArg : value) :
  h !! this = Some A → NoDup A →
  ∃ h', filter_complement_law this (Closure p) thisArg h = Ok true h'.
Proof.
  intros E HA. unfold filter_complement_law.
  exec (filter_spec h this A (Closure p) thisArg (p thisArg) E
          (computes_Closure _ _ _)).
  exec (filter_spec h0 this A (Closure p) thisArg (p thisArg)
          ltac:(eauto with store) (computes_Closure _ _ _)).
  exec (subtract_spec h1 this r0).
  exec (union_spec h2 r r1).
  eexists. eapply equals_true; [eauto with store | eauto with store | apply NoDup_built | done |].
  intros x. elems. rewrite list_elem_of_filter.
  destruct (decide (truthy (answer (p thisArg) this x))); tauto.
Qed.

Lemma filter_complement_witness :
  ∃ h', filter_complement_law 0 (Closure is_one) VUndefined demo_heap = Ok true h'.
Proof.
  apply (filter_complement demo_heap 0 [VNum 1; VNum 2] is_one VUndefined);
    [reflexivity | nodup].
Defined.

(** X16. [A.subtract(B).intersect(B)] is empty: [subtract] leaves no element
    of [B] behind. *)
Theorem subtract_intersect_empty (h : heap) (a b : loc) (A B : list value) :
  h !! a = Some A → h !! b = Some B →
  ∃ h', subtract_intersect_size a b h = Ok 0 h'.
Proof.
  intros EA EB. unfold subtract_intersect_size.
  exec (subtract_spec h a b).
  exec (intersect_spec h0 r b).
  rewrite (size_Ok _ _ _ (allocates_lookup_new _ _ _ _ Hal0)).
  eexists. do 2 f_equal. apply length_zero_iff_nil, elem_of_nil_inv.
  intros x. elems. tauto.
Qed.

Lemma subtract_intersect_empty_witness :
  ∃ h', subtract_intersect_size 0 1 demo_heap = Ok 0 h'.
Proof.
  apply (subtract_intersect_empty demo_heap 0 1 [VNum 1; VNum 2] [VNum 2; VNum 3]);
    reflexivity.
Defined.

(** X17. [A.intersect(B).equals(B.intersect(A))] is true: the two list the
    common elements in different orders. *)
Theorem intersect_commutes (h : heap) (a b : loc) (A B : list value) :
  h !! a = Some A → h !! b = Some B →
  ∃ h', intersect_comm_law a b h = Ok true h'.
Proof.
  intros EA EB. unfold intersect_comm_law.
  exec (intersect_spec h a b).
  exec (intersect_spec h0 b a).
  eexists. eapply equals_true; [eauto with store | eauto with store | apply NoDup_built | apply NoDup_built |].
  intros x. elems. tauto.
Qed.

Lemma intersect_commutes_witness :
  ∃ h', intersect_comm_law 0 1 demo_heap = Ok true h'.
Proof.
  apply (intersect_commutes demo_heap 0 1 [VNum 1; VNum 2] [VNum 2; VNum 3]);
    reflexivity.
Defined.

(** X18. [A.intersect(B).equals(A.subtract(A.subtract(B)))] is true:
    intersecting is subtracting what [subtract] keeps. *)
Theorem intersect_by_subtract (h : heap) (a b : loc) (A B : list value) :
  h !! a = Some A → h !! b = Some B →
  ∃ h', intersect_subtract_law a b h = Ok true h'.
Proof.
  intros EA EB. unfold intersect_subtract_law.
  exec (intersect_spec h a b).
  exec (subtract_spec h0 a b).
  exec (subtract_spec h1 a r0).
  eexists. eapply equals_true; [eauto with store | eauto with store | apply NoDup_built | apply NoDup_built |].
  intros x. elems. destruct (decide (x ∈ B)); tauto.
Qed.

Lemma intersect_by_subtract_witness :
  ∃ h', intersect_subtract_law 0 1 demo_heap = Ok true h'.
Proof.
  apply (intersect_by_subtract demo_heap 0 1 [VNum 1; VNum 2] [VNum 2; VNum 3]);
    reflexivity.
Defined.

(** X19. [A.union(B).union(C).equals(A.union(B.union(C)))] is true. *)
Theorem union_associates (h : heap) (a b c : loc) (A B C : list value) :
  h !! a = Some A → h !! b = Some B → h !! c = Some C →
  ∃ h', union_assoc_law a b c h = Ok true h'.
Proof.
  intros EA EB EC. unfold union_assoc_law.
  exec (union_spec h a b).
  exec (union_spec h0 r c).
  exec (union_spec h1 b c).
  exec (union_spec h2 a r1).
  eexists. eapply equals_true; [eauto with store | eauto with store | apply NoDup_built | apply NoDup_built |].
  intros x. elems. tauto.
Qed.

Lemma union_associates_witness :
  ∃ h', union_assoc_law 0 1 0 demo_heap = Ok true h'.
Proof.
  apply (union_associates demo_heap 0 1 0
           [VNum 1; VNum 2] [VNum 2; VNum 3] [VNum 1; VNum 2]);
    reflexivity.
Defined.

(** X20. For sets without duplicates, [A.union(B)] lists the elements of
    [A] in their order and after them the elements of [B.subtract(A)] in
    theirs. *)
Theorem union_contents (h : heap) (a b : loc) (A B : list value) :
  h !! a = Some A → h !! b = Some B → NoDup A → NoDup B →
  ∃ (u : loc) (h1 : heap) (s : loc) (h2 : heap) (D : list value),
    SuperSet.union a b h = Ok u h1
    ∧ SuperSet.subtract b a h = Ok s h2
    ∧ h2 !! s = Some D
    ∧ h1 !! u = Some (A ++ D).
Proof.
  intros EA EB HA HB.
  destruct (union_spec h a b A B EA EB) as (u & h1 & Eu & Hu).
  destruct (subtract_spec h b a B A EB EA) as (s & h2 & Es & Hs).
  eexists u, h1, s, h2, _. split_and!; [done | done | by eapply allocates_lookup_new |].
  rewrite (allocates_lookup_new _ _ _ _ Hu). f_equal.
  rewrite added_app, (added_NoDup A), (added_NoDup (filter _ B));
    [by apply added_filter | by apply NoDup_filter | done].
Qed.

Lemma union_contents_witness :
  ∃ (u : loc) (h1 : heap) (s : loc) (h2 : heap) (D : list value),
    SuperSet.union 0 1 demo_heap = Ok u h1
    ∧ SuperSet.subtract 1 0 demo_heap = Ok s h2
    ∧ h2 !! s = Some D
    ∧ h1 !! u = Some ([VNum 1; VNum 2] ++ D).
Proof.
  apply (union_contents demo_heap 0 1 [VNum 1; VNum 2] [VNum 2; VNum 3]);
    [reflexivity | reflexivity | nodup | nodup].
Defined.

(** X21. [A.xor(B).equals(B.xor(A))] is true. *)
Theorem xor_commutes (h : heap) (a b : loc) (A B : list value) :
  h !! a = Some A → h !! b = Some B →
  ∃ h', xor_comm_law a b h = Ok true h'.
Proof.
  intros EA EB. unfold xor_comm_law.
  exec (xor_spec h a b).
  exec (xor_spec h0 b a).
  eexists. eapply equals_true; [eauto with store | eauto with store | apply NoDup_built | apply NoDup_built |].
  intros x. elems. tauto.
Qed.

Lemma xor_commutes_witness :
  ∃ h', xor_comm_law 0 1 demo_heap = Ok true h'.
Proof.
  apply (xor_commutes demo_heap 0 1 [VNum 1; VNum 2] [VNum 2; VNum 3]);
    reflexivity.
Defined.

(** X22. [A.xor(B).xor(B).equals(A)] is true: taking the symmetric
    difference with the same set twice gives the first set back. *)
Theorem xor_twice (h : heap) (a b : loc) (A B : list value) :
  h !! a = Some A → h !! b = Some B → NoDup A →
  ∃ h', xor_twice_law a b h = Ok true h'.
Proof.
  intros EA EB HA. unfold xor_twice_law.
  exec (xor_spec h a b).
  exec (xor_spec h0 r b).
  eexists. eapply equals_true; [eauto with store | eauto with store | apply NoDup_built | done |].
  intros x. elems. destruct (decide (x ∈ A)), (decide (x ∈ B)); tauto.
Qed.

Lemma xor_twice_witness :
  ∃ h', xor_twice_law 0 1 demo_heap = Ok true h'.
Proof.
  apply (xor_twice demo_heap 0 1 [VNum 1; VNum 2] [VNum 2; VNum 3]);
    [reflexivity | reflexivity | nodup].
Defined.

(** X23. For sets without duplicates, [A.xor(B)] lists the elements of
    [A.subtract(B)] in their order and after them the elements of
    [B.subtract(A)] in theirs. *)
Theorem xor_contents (h : heap) (a b : loc) (A B : list value) :
  h !! a = Some A → h !! b = Some B → NoDup A → NoDup B →
  ∃ (x : loc) (h1 : heap) (s t : loc) (h2 h3 : heap) (D1 D2 : list value),
    SuperSet.xor a b h = Ok x h1
    ∧ SuperSet.subtract a b h = Ok s h2 ∧ h2 !! s = Some D1
    ∧ SuperSet.subtract b a h = Ok t h3 ∧ h3 !! t = Some D2
    ∧ h1 !! x = Some (D1 ++ D2).
Proof.
  intros EA EB HA HB.
  destruct (xor_spec h a b A B EA EB) as (x & h1 & Ex & Hx).
  destruct (subtract_spec h a b A B EA EB) as (s & h2 & Es & Hs).
  destruct (subtract_spec h b a B A EB EA) as (t & h3 & Et & Ht).
  eexists x, h1, s, t, h2, h3, _, _.
  split_and!; [done | done | by eapply allocates_lookup_new | done
               | by eapply allocates_lookup_new |].
  rewrite (allocates_lookup_new _ _ _ _ Hx). f_equal.
  rewrite !added_NoDup; [done | by apply NoDup_filter.. |].
  apply NoDup_app. split_and!; [by apply NoDup_filter | | by apply NoDup_filter].
  intros v. rewrite !elem_of_subtracted. tauto.
Qed.

Lemma xor_contents_witness :
  ∃ (x : loc) (h1 : heap) (s t : loc) (h2 h3 : heap) (D1 D2 : list value),
    SuperSet.xor 0 1 demo_heap = Ok x h1
    ∧ SuperSet.subtract 0 1 demo_heap = Ok s h2 ∧ h2 !! s = Some D1
    ∧ SuperSet.subtract 1 0 demo_heap = Ok t h3 ∧ h3 !! t = Some D2
    ∧ h1 !! x = Some (D1 ++ D2).
Proof.
  apply (xor_contents demo_heap 0 1 [VNum 1; VNum 2] [VNum 2; VNum 3]);
    [reflexivity | reflexivity | nodup | nodup].
Defined.

(** ** More on update *)

(** X24. [update] is [union] done in place: after [A.update(B)] the set [A]
    lists exactly what the new set [A.union(B)] lists, in the same order. *)
Theorem update_is_union (fuel : nat) (h : heap) (a b : loc) (A B : list value) :
  h !! a = Some A → h !! b = Some B → NoDup A → length B < fuel →
  ∃ (u : loc) (h1 : heap) (U : list value),
    SuperSet.union a b h = Ok u h1
    ∧ h1 !! u = Some U
    ∧ SuperSet.update fuel a (ISet b) h = Ok a (<[a := U]> h).
Proof.
  intros EA EB HA Hfuel.
  destruct (union_spec h a b A B EA EB) as (u & h1 & Eu & Hu).
  eexists u, h1, _. split_and!; [done | by eapply allocates_lookup_new |].
  rewrite (update_Ok fuel h a A (ISet b) B EA EB Hfuel).
  by rewrite added_app, (added_NoDup A).
Qed.

Lemma update_is_union_witness :
  ∃ (u : loc) (h1 : heap) (U : list value),
    SuperSet.union 0 1 demo_heap = Ok u h1
    ∧ h1 !! u = Some U
    ∧ SuperSet.update 3 0 (ISet 1) demo_heap = Ok 0 (<[0 := U]> demo_heap).
Proof.
  apply (update_is_union 3 demo_heap 0 1 [VNum 1; VNum 2] [VNum 2; VNum 3]);
    [reflexivity | reflexivity | nodup | simpl; lia].
Defined.

(** X25. [S.update(S)] ends, returns [S] and changes nothing, although the
    loop walks the very set it adds to. *)
Theorem update_self_noop (fuel : nat) (h : heap) (this : loc) (d : list value) :
  h !! this = Some d → length d < fuel →
  SuperSet.update fuel this (ISet this) h = Ok this h.
Proof.
  intros Ed Hfuel.
  rewrite (update_Ok fuel h this d (ISet this) d Ed Ed Hfuel).
  rewrite added_subset by done. by rewrite insert_id.
Qed.

Lemma update_self_noop_witness :
  SuperSet.update 3 0 (ISet 0) demo_heap = Ok 0 demo_heap.
Proof.
  apply (update_self_noop 3 demo_heap 0 [VNum 1; VNum 2]);
    [reflexivity | simpl; lia].
Defined.

(** X26. [update] is idempotent: [S.update(I).update(I)] leaves the store
    that [S.update(I)] leaves. *)
Theorem update_idempotent (fuel : nat) (h : heap) (this : loc)
    (d : list value) (it : iterable) (vs : list value) :
  h !! this = Some d → elements_of h it = Some vs → length vs < fuel →
  ∃ h', SuperSet.update fuel this it h = Ok this h'
        ∧ update_twice fuel this it h = Ok this h'.
Proof.
  intros Ed Eit Hfuel. eexists. split; [by apply update_Ok|].
  unfold update_twice.
  rewrite (bind_Ok _ _ _ _ _ (update_Ok fuel h this d it vs Ed Eit Hfuel)).
  assert (added (added d vs) vs = added d vs) as Hsame.
  { apply added_subset. intros x Hx. apply elem_of_added. by right. }
  destruct (decide (it = ISet this)) as [->|Hne].
  - simpl in Eit. assert (vs = d) as -> by congruence.
    rewrite (added_subset d d) by done. rewrite insert_id by done.
    rewrite (update_Ok fuel h this d (ISet this) d Ed Ed Hfuel).
    by rewrite (added_subset d d), insert_id.
  - rewrite (update_Ok fuel _ this (added d vs) it vs); [| | |done].
    + by rewrite insert_insert_eq, Hsame.
    + apply lookup_insert_eq.
    + destruct it as [ws|src]; [done|]. simpl in *.
      rewrite lookup_insert_ne; [done | congruence].
Qed.

Lemma update_idempotent_witness :
  ∃ h', SuperSet.update 3 0 (ISet 1) demo_heap = Ok 0 h'
        ∧ update_twice 3 0 (ISet 1) demo_heap = Ok 0 h'.
Proof.
  apply (update_idempotent 3 demo_heap 0 [VNum 1; VNum 2] (ISet 1)
           [VNum 2; VNum 3]);
    [reflexivity | reflexivity | simpl; lia].
Defined.

(** X27. [update] removes nothing and moves nothing: the elements the set
    had stay at the front in their order, and what comes after them is taken
    from the iterable in its order. *)
Theorem update_keeps_prefix (fuel : nat) (h : heap) (this : loc)
    (d : list value) (it : iterable) (vs : list value) :
  h !! this = Some d → elements_of h it = Some vs → length vs < fuel →
  ∃ d', SuperSet.update fuel this it h = Ok this (<[this := d']> h)
        ∧ d `prefix_of` d'
        ∧ d' `sublist_of` d ++ vs
        ∧ length d ≤ length d'.
Proof.
  intros Ed Eit Hfuel. exists (added d vs). split_and!.
  - by apply update_Ok.
  - apply added_prefix.
  - apply added_sublist.
  - apply length_added_ge.
Qed.

Lemma update_keeps_prefix_witness :
  ∃ d', SuperSet.update 3 0 (IArray [VNum 2; VNum 3]) demo_heap
        = Ok 0 (<[0 := d']> demo_heap)
        ∧ [VNum 1; VNum 2] `prefix_of` d'
        ∧ d' `sublist_of` [VNum 1; VNum 2] ++ [VNum 2; VNum 3]
        ∧ length [VNum 1; VNum 2] ≤ length d'.
Proof.
  apply (update_keeps_prefix 3 demo_heap 0 [VNum 1; VNum 2]
           (IArray [VNum 2; VNum 3]) [VNum 2; VNum 3]);
    [reflexivity | reflexivity | simpl; lia].
Defined.

(** ** The constructor and the invariant *)

Lemma filter_ext_in_True (l : list value) :
  filter (λ x, x ∉ []) l = l.
Proof.
  induction l as [|a l IH]; [done|].
  rewrite filter_cons_True by apply not_elem_of_nil. by rewrite IH.
Qed.

Lemma filter_not_elem_of_snoc (d : list value) (v : value) (l : list value) :
  filter (λ x, x ∉ d ++ [v]) l = filter (λ x, x ∉ d) (filter (λ x, x ≠ v) l).
Proof.
  rewrite list_filter_filter. apply filter_ext_in. intros x _.
  rewrite elem_of_app, list_elem_of_singleton. tauto.
Qed.

Lemma filter_not_elem_of_drop (d : list value) (v : value) (l : list value) :
  v ∈ d →
  filter (λ x, x ∉ d) (filter (λ x, x ≠ v) l) = filter (λ x, x ∉ d) l.
Proof.
  intros Hv. rewrite list_filter_filter. apply filter_ext_in. intros x _.
  split; [tauto|]. intros Hx. split; [done|]. by intros ->.
Qed.

(** Adding [vs] to [d] appends the first occurrences of [vs] that [d]
    lacks. *)
Lemma added_first_occurrences d vs :
  added d vs = d ++ filter (λ x, x ∉ d) (first_occurrences vs).
Proof.
  revert d. induction vs as [|v vs IH]; intros d.
  - by rewrite added_nil, app_nil_r.
  - rewrite added_cons. unfold JSSet.add_data. cbn [first_occurrences].
    destruct (decide (v ∈ d)) as [Hd|Hd].
    + rewrite filter_cons_False by tauto.
      by rewrite IH, filter_not_elem_of_drop.
    + rewrite filter_cons_True by done.
      rewrite IH, <- app_assoc. simpl. do 2 f_equal.
      apply filter_not_elem_of_snoc.
Qed.

(** X29. [new SuperSet(array)] builds a new object that lists the first
    occurrences of the values of the array, in the order of the array: the
    value at the head, then what the rest of the array gives without that
    value. It holds each value of the array once. It has as many elements
    as the array exactly when the array repeats no value, and then it lists
    the array as it is. *)
Theorem constructor_dedups (h : heap) (vs : list value) :
  ∃ (r : loc) (h' : heap) (R : list value),
    SuperSet.of_array vs h = Ok r h'
    ∧ h !! r = None
    ∧ h' !! r = Some R
    ∧ R = first_occurrences vs
    ∧ NoDup R
    ∧ (∀ x, x ∈ R ↔ x ∈ vs)
    ∧ R `sublist_of` vs
    ∧ length R ≤ length vs
    ∧ (length R = length vs ↔ NoDup vs)
    ∧ (NoDup vs → R = vs).
Proof.
  exists (fresh (dom h)), (<[fresh (dom h) := added [] vs]> h), (added [] vs).
  split_and!.
  - by apply new_Ok.
  - apply fresh_None.
  - apply lookup_insert_eq.
  - rewrite added_first_occurrences. simpl. apply filter_ext_in_True.
  - apply NoDup_built.
  - intros x. rewrite elem_of_added, elem_of_nil. tauto.
  - apply (added_sublist [] vs).
  - apply (length_added_le [] vs).
  - apply (length_added_eq [] vs), NoDup_nil_2.
  - apply added_NoDup.
Qed.

Lemma demo_heap_wf : heap_wf demo_heap.
Proof.
  intros l d. unfold demo_heap. rewrite !lookup_insert, lookup_empty.
  repeat case_decide; intros [= <-]; nodup.
Qed.

(** X28. No method breaks the invariant of the store: when every set holds
    each of its elements once, it is so again after [map], [filter],
    [union], [subtract], [xor], [intersect], [update] and the constructor
    have returned. *)
Theorem methods_keep_wf (fuel : nat) (h : heap) (a b : loc) (A B : list value)
    (f : value → list value → value) (thisArg : value)
    (it : iterable) (vs ws : list value) :
  heap_wf h → h !! a = Some A → h !! b = Some B →
  elements_of h it = Some vs → length vs < fuel →
  keeps_wf h (SuperSet.map a (Closure f) thisArg)
  ∧ keeps_wf h (SuperSet.filter a (Closure f) thisArg)
  ∧ keeps_wf h (SuperSet.union a b)
  ∧ keeps_wf h (SuperSet.subtract a b)
  ∧ keeps_wf h (SuperSet.xor a b)
  ∧ keeps_wf h (SuperSet.intersect a b)
  ∧ keeps_wf h (SuperSet.update fuel a it)
  ∧ keeps_wf h (SuperSet.of_array ws).
Proof.
  intros Hwf EA EB Eit Hfuel. split_and!.
  - destruct (map_spec h a A (Closure f) thisArg _ EA (computes_Closure _ _ _))
      as (r & h' & E & Hal).
    exists r, h'. split; [done | by eapply allocates_wf].
  - destruct (filter_spec h a A (Closure f) thisArg _ EA (computes_Closure _ _ _))
      as (r & h' & E & Hal).
    exists r, h'. split; [done | by eapply allocates_wf].
  - apply (algebra_wf h a b A B Hwf EA EB). set_solver.
  - apply (algebra_wf h a b A B Hwf EA EB). set_solver.
  - apply (algebra_wf h a b A B Hwf EA EB). set_solver.
  - apply (algebra_wf h a b A B Hwf EA EB). set_solver.
  - destruct (update_wf fuel h a A it vs Hwf EA Eit Hfuel) as (h' & E & Hwf').
    by exists a, h'.
  - eexists _, _. split; [by apply new_Ok|].
    apply heap_wf_insert; [done | apply NoDup_built].
Qed.

Lemma methods_keep_wf_witness :
  keeps_wf demo_heap (SuperSet.map 0 (Closure is_one) VUndefined)
  ∧ keeps_wf demo_heap (SuperSet.filter 0 (Closure is_one) VUndefined)
  ∧ keeps_wf demo_heap (SuperSet.union 0 1)
  ∧ keeps_wf demo_heap (SuperSet.subtract 0 1)
  ∧ keeps_wf demo_heap (SuperSet.xor 0 1)
  ∧ keeps_wf demo_heap (SuperSet.intersect 0 1)
  ∧ keeps_wf demo_heap (SuperSet.update 3 0 (ISet 1))
  ∧ keeps_wf demo_heap (SuperSet.of_array [VNum 1; VNum 1]).
Proof.
  apply (methods_keep_wf 3 demo_heap 0 1 [VNum 1; VNum 2] [VNum 2; VNum 3]
           is_one VUndefined (ISet 1) [VNum 2; VNum 3] [VNum 1; VNum 1]);
    [exact demo_heap_wf | reflexivity | reflexivity | reflexivity | simpl; lia].
Defined.

(** The constructor on an array that repeats its first value after another
    one. *)
Example constructor_order :
  ∃ r h, SuperSet.of_array [VNum 1; VNum 2; VNum 1] ∅ = Ok r h
         ∧ h !! r = Some [VNum 1; VNum 2].
Proof. eexists _, _. split; reflexivity. Qed.
